(** * Offline cache service worker of the Leeward Point guestbook

    A shallow embedding of [service-worker.js] (cache generation
    [leeward-point-cache-v11]): the tile coordinate arithmetic, the tile
    URL generation, and the install / activate / fetch handlers running
    against a model of the browser's cache storage and network.

    Numbers.  JavaScript numbers are IEEE 754 doubles.  Module [Double]
    models them: NaN, the infinities, the two zeros, and the finite
    values with every operation rounded to the nearest double.  Module
    [DoubleTiles] embeds [latLonToTile] and [generateTileUrls] over
    them, with loops whose counter is a double and that need not end.
    [Math.tan], [Math.cos] and [Math.log], which the language standard
    leaves to the engine, are a parameter of the embedding.

    Module [Tiles] holds the same two functions in exact arithmetic
    (real numbers, integer counters).  It carries the statements that
    do not depend on the values of the projected corners: that the URL
    template is injective, that a list has no duplicates, and what the
    install handler does with whatever list it is given.

    The fetch listener.  The condition of line 255 is a regular
    expression literal whose only slash after the opening one is
    escaped.  [RegExp.literal] reads a literal as the lexical grammar of
    the language does, and [SW.fetchListener] is the listener that the
    source text denotes, if it denotes one. *)

From Stdlib Require Import Reals Lra Lia ZArith Ascii String.
From Stdlib Require Import QArith Qround Qabs Qpower Lqa.
From Stdlib.Strings Require Import Byte.
From stdpp Require Import gmap strings list pretty.

(** ** Runtime helpers: arrays and loops *)

Module JS.

(** [arr.push(x)] on an array threaded as a value. *)
Definition push {A} (arr : list A) (x : A) : list A := arr ++ [x].

(** [arr.forEach(a => body)] where the body updates a state [s]. *)
Definition forEach {A S} (arr : list A) (body : A → S → S) (s : S) : S :=
  fold_left (λ acc a, body a acc) arr s.

(** [k] iterations of a counting loop whose variable starts at [i]. *)
Fixpoint for_count {S} (k : nat) (i : Z) (body : Z → S → S) (s : S) : S :=
  match k with
  | O => s
  | Datatypes.S k' => for_count k' (i + 1)%Z body (body i s)
  end.

(** [for (let i = lo; i <= hi; i++) body] on integers: the loop runs
    [hi + 1 - lo] times when [lo <= hi] and not at all otherwise. *)
Definition for_le {S} (lo hi : Z) (body : Z → S → S) (s : S) : S :=
  for_count (Z.to_nat (hi + 1 - lo)) lo body s.

End JS.

(** ** The tile coordinate mapper and the URL generation, in exact arithmetic

    [Math.floor] is the integer floor, [Math.pow(2, zoom)] is
    [powerRZ 2 zoom], [Math.tan], [Math.cos], [Math.log] and [Math.PI]
    are [tan], [cos], [ln] and [PI]; the loop counters are integers.
    The same code over doubles is in [DoubleTiles] below. *)

Module Tiles.
Import JS.

Record BoundingRegion := {
  latMin : R;
  latMax : R;
  lonMin : R;
  lonMax : R;
  zoomLevels : list Z
}.

(** The box of roughly 80 miles around Jacksonville, FL. *)
Definition OFFLINE_TILE_BOUNDS : BoundingRegion := {|
  latMin := 29.18;
  latMax := 31.48;
  lonMin := -82.98;
  lonMax := -80.32;
  zoomLevels := [12%Z]
|}.

Definition latLonToTile (lat lon : R) (zoom : Z) : Z * Z :=
  let latRad := (lat * PI / 180)%R in
  let n := powerRZ 2 zoom in
  let x := Zfloor ((lon + 180) / 360 * n) in
  let y := Zfloor ((1 - ln (tan latRad + 1 / cos latRad) / PI) / 2 * n) in
  (x, y).

(** The template literal
    [https://${sub}.tile.openstreetmap.org/${zoom}/${x}/${y}.png];
    integers print in decimal, with a leading minus sign when negative. *)
Definition tileUrl (sub : string) (zoom x y : Z) : string :=
  "https://" +:+ sub +:+ ".tile.openstreetmap.org/" +:+ pretty zoom
    +:+ "/" +:+ pretty x +:+ "/" +:+ pretty y +:+ ".png".

Definition subdomains : list string := ["a"; "b"; "c"].

Definition generateTileUrls (bounds : BoundingRegion) : list string :=
  forEach (zoomLevels bounds) (λ zoom urls,
    let '(xMinCandidate, yMaxCandidate) :=
      latLonToTile (latMin bounds) (lonMin bounds) zoom in
    let '(xMaxCandidate, yMinCandidate) :=
      latLonToTile (latMax bounds) (lonMax bounds) zoom in
    let xMin := Z.min xMinCandidate xMaxCandidate in
    let xMax := Z.max xMinCandidate xMaxCandidate in
    let yMin := Z.min yMinCandidate yMaxCandidate in
    let yMax := Z.max yMinCandidate yMaxCandidate in
    for_le xMin xMax (λ x urls,
      for_le yMin yMax (λ y urls,
        forEach subdomains (λ sub urls,
          push urls (tileUrl sub zoom x y)) urls) urls) urls) [].

(** [sec] is the reciprocal of the cosine. *)
Definition sec (a : R) : R := (/ cos a)%R.

(** The tile column of a longitude and the tile row of a latitude. *)
Definition xAt (lon : R) (zoom : Z) : Z := Zfloor ((lon + 180) / 360 * powerRZ 2 zoom).
Definition yAt (lat : R) (zoom : Z) : Z :=
  Zfloor ((1 - ln (tan (lat * PI / 180) + sec (lat * PI / 180)) / PI) / 2 * powerRZ 2 zoom).

(** *** Vocabulary of the statements about tiles *)

(** The column range [min(x at lonMin), max(x at lonMax)] and the row
    range [min(y at latMax), max(y at latMin)] of a region at a zoom. *)
Definition xRange (b : BoundingRegion) (zoom : Z) : Z * Z :=
  (Z.min (xAt (lonMin b) zoom) (xAt (lonMax b) zoom),
   Z.max (xAt (lonMin b) zoom) (xAt (lonMax b) zoom)).

Definition yRange (b : BoundingRegion) (zoom : Z) : Z * Z :=
  (Z.min (yAt (latMax b) zoom) (yAt (latMin b) zoom),
   Z.max (yAt (latMax b) zoom) (yAt (latMin b) zoom)).

Definition InRectangle (b : BoundingRegion) (zoom x y : Z) : Prop :=
  ((xRange b zoom).1 ≤ x ≤ (xRange b zoom).2)%Z ∧
  ((yRange b zoom).1 ≤ y ≤ (yRange b zoom).2)%Z.

(** The URLs of the inclusive rectangle at one zoom, in loop order. *)
Definition rectangle (b : BoundingRegion) (zoom : Z) : list string :=
  x ← seqZ (xRange b zoom).1 ((xRange b zoom).2 + 1 - (xRange b zoom).1);
  y ← seqZ (yRange b zoom).1 ((yRange b zoom).2 + 1 - (yRange b zoom).1);
  sub ← subdomains;
  [tileUrl sub zoom x y].

End Tiles.

(** ** JavaScript numbers: IEEE 754 binary64

    A number is NaN, an infinity, the negative zero, or a finite value
    given by the rational it denotes ([Fin 0] is the positive zero).
    Every arithmetic operation computes the exact rational result and
    rounds it to the nearest double, ties to the even significand; the
    rounding is written out below.  [Math.pow(2, zoom)] for an integer
    [zoom] is the power of two, rounded only where it leaves the range of
    the doubles. *)

Module Double.
#[local] Open Scope Q_scope.

Inductive num :=
  | NaN
  | Inf (negative : bool)
  | NegZero
  | Fin (q : Q).

Definition pow2 (e : Z) : Q := 2 ^ e.

(** The binary exponent of a positive rational: [2^e <= a < 2^(e+1)]. *)
Definition ilog2 (a : Q) : Z :=
  let e := (Z.log2 (Qnum a) - Z.log2 (Zpos (Qden a)))%Z in
  if Qle_bool (pow2 e) a then e else (e - 1)%Z.

(** The nearest integer, ties to even. *)
Definition rne (t : Q) : Z :=
  let f := Qfloor t in
  match Qcompare (t - inject_Z f) (1 # 2) with
  | Lt => f
  | Gt => (f + 1)%Z
  | Eq => if Z.even f then f else (f + 1)%Z
  end.

(** The double nearest to a magnitude: 53 significant bits, the
    exponent of the last bit never below -1074. *)
Definition round_mag (a : Q) : Q :=
  let k := (Z.max (ilog2 a) (-1022) - 52)%Z in
  inject_Z (rne (a / pow2 k)) * pow2 k.

Definition negative (q : Q) : bool := negb (Qle_bool 0 q).

Definition zero (neg : bool) : num := if neg then NegZero else Fin 0.

(** The double nearest to a rational, as a rational (overflow apart). *)
Definition nearest (q : Q) : Q :=
  if negative q then - round_mag (Qabs q) else round_mag (Qabs q).

(** The double an exact result [q] is rounded to; [neg_zero] is the sign
    of the zero when [q] is zero.  From 2^1024 on the result is an
    infinity; a result that rounds to zero keeps its sign. *)
Definition round (neg_zero : bool) (q : Q) : num :=
  if Qeq_bool q 0 then zero neg_zero
  else
    let v := nearest q in
    if Qle_bool (pow2 1024) (Qabs v) then Inf (negative q)
    else if Qeq_bool v 0 then zero (negative q)
    else Fin (Qred v).

(** An integer as a number, and a numeric literal. *)
Definition int (z : Z) : num := Fin (inject_Z z).
Definition lit (q : Q) : num := round false q.

Definition val (x : num) : Q := match x with Fin q => q | _ => 0 end.

Definition sign (x : num) : bool :=
  match x with NaN => false | Inf s => s | NegZero => true | Fin q => negative q end.

Definition is_zero (x : num) : bool :=
  match x with NegZero => true | Fin q => Qeq_bool q 0 | _ => false end.

(** [x + y] *)
Definition add (x y : num) : num :=
  match x, y with
  | NaN, _ | _, NaN => NaN
  | Inf s, Inf t => if Bool.eqb s t then Inf s else NaN
  | Inf s, _ => Inf s
  | _, Inf t => Inf t
  | _, _ => round (sign x && sign y) (val x + val y)
  end.

(** [-x] *)
Definition opp (x : num) : num :=
  match x with
  | NaN => NaN
  | Inf s => Inf (negb s)
  | NegZero => Fin 0
  | Fin q => if Qeq_bool q 0 then NegZero else Fin (- q)
  end.

(** [x - y] *)
Definition sub (x y : num) : num := add x (opp y).

(** [x * y] *)
Definition mul (x y : num) : num :=
  match x, y with
  | NaN, _ | _, NaN => NaN
  | Inf s, _ => if is_zero y then NaN else Inf (xorb s (sign y))
  | _, Inf t => if is_zero x then NaN else Inf (xorb (sign x) t)
  | _, _ => round (xorb (sign x) (sign y)) (val x * val y)
  end.

(** [x / y] *)
Definition div (x y : num) : num :=
  match x, y with
  | NaN, _ | _, NaN => NaN
  | Inf s, Inf t => NaN
  | Inf s, _ => Inf (xorb s (sign y))
  | _, Inf t => zero (xorb (sign x) t)
  | _, _ =>
      if is_zero y then (if is_zero x then NaN else Inf (xorb (sign x) (sign y)))
      else round (xorb (sign x) (sign y)) (val x / val y)
  end.

(** [x <= y] and [x < y]: false as soon as one side is NaN. *)
Definition le (x y : num) : bool :=
  match x, y with
  | NaN, _ | _, NaN => false
  | Inf true, _ => true
  | _, Inf false => true
  | Inf false, _ => false
  | _, Inf true => false
  | _, _ => Qle_bool (val x) (val y)
  end.

Definition lt (x y : num) : bool :=
  match x, y with
  | NaN, _ | _, NaN => false
  | _, _ => negb (le y x)
  end.

(** [x++] *)
Definition incr (x : num) : num := add x (int 1).

Definition Math_PI : num := lit 3.141592653589793.

(** [Math.pow(2, zoom)] for an integer [zoom]. *)
Definition Math_pow2 (zoom : Z) : num := round false (pow2 zoom).

Definition Math_floor (x : num) : num :=
  match x with
  | Fin q => Fin (inject_Z (Qfloor q))
  | _ => x
  end.

(** [Math.min] and [Math.max]: NaN when an argument is NaN; the
    negative zero is below the positive one. *)
Definition Math_min (x y : num) : num :=
  match x, y with
  | NaN, _ | _, NaN => NaN
  | _, _ => if lt x y then x else if lt y x then y else if sign x then x else y
  end.

Definition Math_max (x y : num) : num :=
  match x, y with
  | NaN, _ | _, NaN => NaN
  | _, _ => if lt x y then y else if lt y x then x else if sign x then y else x
  end.

(** The text of a number in a template literal, for the numbers the
    loop counters take: integers print in decimal (exponent notation,
    which starts at 1e21, and fractions are not modelled). *)
Definition toString (x : num) : string :=
  match x with
  | NaN => "NaN"
  | Inf false => "Infinity"
  | Inf true => "-Infinity"
  | NegZero => "0"
  | Fin q => pretty (Qfloor q)
  end.

(** The functions of [Math] that the language standard leaves to the
    engine ("implementation-approximated"). *)
Record Math := {
  Math_tan : num → num;
  Math_cos : num → num;
  Math_log : num → num
}.

(** *** Vocabulary of the statements about numbers *)

(** The rational a finite number denotes. *)
Definition value (x : num) : option Q :=
  match x with Fin q => Some q | NegZero => Some 0 | _ => None end.

(** The integer a number stands for, when it is one. *)
Definition index (x : num) : option Z :=
  match x with
  | Fin q => if Qeq_bool q (inject_Z (Qfloor q)) then Some (Qfloor q) else None
  | NegZero => Some 0%Z
  | _ => None
  end.

(** The rationals that are doubles: at most 53 significant bits, the
    last one not below 2^-1074. *)
Definition representable (q : Q) : Prop :=
  ∃ z k, (Z.abs z < 2 ^ 53)%Z ∧ (-1074 ≤ k)%Z ∧ q == inject_Z z * pow2 k.


(** A library that answers where the standard fixes the value and with
    NaN elsewhere. *)
Definition standard_values_only : Math := {|
  Math_tan := λ x, if is_zero x then x else NaN;
  Math_cos := λ x, if is_zero x then int 1 else NaN;
  Math_log := λ x, match value x with
                   | Some q => if Qeq_bool q 1 then Fin 0 else NaN
                   | None => NaN
                   end
|}.

End Double.

(** ** The tile coordinate mapper and the URL generation, in doubles *)

Module DoubleTiles.
Import JS Double.

Record BoundingRegion := {
  latMin : num;
  latMax : num;
  lonMin : num;
  lonMax : num;
  zoomLevels : list Z
}.

Definition OFFLINE_TILE_BOUNDS : BoundingRegion := {|
  latMin := lit 29.18;
  latMax := lit 31.48;
  lonMin := lit (-82.98);
  lonMax := lit (-80.32);
  zoomLevels := [12%Z]
|}.

Definition latLonToTile (M : Math) (lat lon : num) (zoom : Z) : num * num :=
  let latRad := div (mul lat Math_PI) (int 180) in
  let n := Math_pow2 zoom in
  let x := Math_floor (mul (div (add lon (int 180)) (int 360)) n) in
  let y := Math_floor
    (mul (div (sub (int 1)
                   (div (Math_log M (add (Math_tan M latRad)
                                         (div (int 1) (Math_cos M latRad))))
                        Math_PI))
              (int 2)) n) in
  (x, y).

(** The template literal of the tile URL. *)
Definition tileUrl (sub : string) (zoom : Z) (x y : num) : string :=
  "https://" +:+ sub +:+ ".tile.openstreetmap.org/" +:+ pretty zoom
    +:+ "/" +:+ toString x +:+ "/" +:+ toString y +:+ ".png".

(** [for (let i = lo; i <= hi; i++) body] with a counter that is a
    double.  Such a loop need not end: [fuel] bounds the number of
    tests of the loop condition, and [None] says that it ran out. *)
Fixpoint for_le {S} (fuel : nat) (i hi : num) (body : num → S → option S) (s : S)
  : option S :=
  match fuel with
  | O => None
  | Datatypes.S fuel' =>
      if le i hi then
        match body i s with
        | Some s' => for_le fuel' (incr i) hi body s'
        | None => None
        end
      else Some s
  end.

(** [arr.forEach] with a body that may not return. *)
Definition forEach_loops {A S} (arr : list A) (body : A → S → option S) (s : S)
  : option S :=
  fold_left (λ acc a, match acc with Some s' => body a s' | None => None end) arr (Some s).

(** [generateTileUrls(bounds)], every loop of it given [fuel]: [None]
    when a loop did not end within it. *)
Definition generateTileUrls (M : Math) (fuel : nat) (bounds : BoundingRegion)
  : option (list string) :=
  forEach_loops (zoomLevels bounds) (λ zoom urls,
    let '(xMinCandidate, yMaxCandidate) :=
      latLonToTile M (latMin bounds) (lonMin bounds) zoom in
    let '(xMaxCandidate, yMinCandidate) :=
      latLonToTile M (latMax bounds) (lonMax bounds) zoom in
    let xMin := Math_min xMinCandidate xMaxCandidate in
    let xMax := Math_max xMinCandidate xMaxCandidate in
    let yMin := Math_min yMinCandidate yMaxCandidate in
    let yMax := Math_max yMinCandidate yMaxCandidate in
    for_le fuel xMin xMax (λ x urls,
      for_le fuel yMin yMax (λ y urls,
        Some (forEach Tiles.subdomains (λ sub urls,
          push urls (tileUrl sub zoom x y)) urls)) urls) urls) [].

End DoubleTiles.

(** ** Vocabulary of the statements about the tiles in doubles *)

Module DoubleVocabulary.
Import Double DoubleTiles.
#[local] Open Scope Q_scope.

(** The Mercator ordinate [Math.log(Math.tan(latRad) + 1 / Math.cos(latRad))]
    as [latLonToTile] computes it. *)
Definition mercatorOrdinate (M : Math) (lat : num) : num :=
  let latRad := div (mul lat Math_PI) (int 180) in
  Math_log M (add (Math_tan M latRad) (div (int 1) (Math_cos M latRad))).


(** The invariant of a TileCoordinate: integers with [0 ≤ x, y < 2^zoom]. *)
Definition TileInvariant (zoom : Z) (t : num * num) : Prop :=
  ∃ x y, index t.1 = Some x ∧ index t.2 = Some y ∧
    (0 ≤ x < 2 ^ zoom)%Z ∧ (0 ≤ y < 2 ^ zoom)%Z.



(** The URLs of an inclusive rectangle of tiles, in loop order. *)
Definition rectangle (zoom xMin xMax yMin yMax : Z) : list string :=
  x ← seqZ xMin (xMax + 1 - xMin);
  y ← seqZ yMin (yMax + 1 - yMin);
  sub ← Tiles.subdomains;
  [Tiles.tileUrl sub zoom x y].


(** The largest longitude below 180 whose sum with 180 is below 360 in
    doubles: 179.99999999999994. *)
Definition LON_MAX : Q := 180 - pow2 (-44).

(** The smallest Mercator ordinate that gives a row inside the grid:
    [-Math.PI] plus two units in its last place. *)
Definition ORDINATE_MIN : Q := - val Math_PI + pow2 (-50).




(** The largest double below 180: 179.99999999999997. *)
Definition just_below_180 : num := lit 179.99999999999997.

End DoubleVocabulary.

(** ** Regular expressions: the fragment the worker uses *)

Module RegExp.

(** A pattern character: a literal (written plainly or escaped with a
    backslash) or the unescaped dot, which matches any character except
    a line terminator. *)
Inductive atom :=
  | Lit (c : ascii)
  | AnyChar.

Definition is_line_terminator (c : ascii) : bool :=
  bool_decide (c = "010"%char) || bool_decide (c = "013"%char).

Definition atom_matches (a : atom) (c : ascii) : bool :=
  match a with
  | Lit d => bool_decide (c = d)
  | AnyChar => negb (is_line_terminator c)
  end.

(** Reads the text between the slashes of a regex literal made of plain
    characters, escaped characters and dots. *)
Fixpoint parse (src : string) : list atom :=
  match src with
  | EmptyString => []
  | String "\" (String c rest) => Lit c :: parse rest
  | String "." rest => AnyChar :: parse rest
  | String c rest => Lit c :: parse rest
  end.

(** The pattern matches at the start of [s]. *)
Fixpoint match_here (re : list atom) (s : string) : bool :=
  match re, s with
  | [], _ => true
  | a :: re', String c s' => atom_matches a c && match_here re' s'
  | _ :: _, EmptyString => false
  end.

(** [re.test(s)] without anchors: the pattern matches at some offset. *)
Fixpoint test (re : list atom) (s : string) : bool :=
  match_here re s ||
  match s with
  | EmptyString => false
  | String _ s' => test re s'
  end.

(** The body of a regular expression literal, read from the character
    after the opening slash: it ends at the first slash that is neither
    escaped by a backslash nor inside a character class.  A line
    terminator or the end of the text before that slash leaves the
    literal unterminated: [None], a SyntaxError.  The result is the
    body and the text after the closing slash. *)
Fixpoint literal_body (src : string) (in_class : bool) : option (string * string) :=
  match src with
  | EmptyString => None
  | String c rest =>
      if is_line_terminator c then None
      else if bool_decide (c = "\"%char) then
        match rest with
        | EmptyString => None
        | String d rest' =>
            if is_line_terminator d then None
            else match literal_body rest' in_class with
                 | Some (body, after) => Some (String c (String d body), after)
                 | None => None
                 end
        end
      else if bool_decide (c = "/"%char) && negb in_class then Some (EmptyString, rest)
      else
        let in_class' :=
          if bool_decide (c = "["%char) then true
          else if bool_decide (c = "]"%char) then false
          else in_class in
        match literal_body rest in_class' with
        | Some (body, after) => Some (String c body, after)
        | None => None
        end
  end.

(** A regular expression literal at the start of [src]: a slash, a body
    that is not empty (two slashes start a comment), the closing
    slash. *)
Definition literal (src : string) : option (string * string) :=
  match src with
  | String "/" rest =>
      match literal_body rest false with
      | Some (EmptyString, _) => None
      | r => r
      end
  | _ => None
  end.

End RegExp.

(** ** Texts: occurrences of characters and of substrings *)

Module Text.

Fixpoint occurs (c : ascii) (s : string) : Prop :=
  match s with
  | EmptyString => False
  | String d s' => d = c ∨ occurs c s'
  end.

Definition is_digit (c : ascii) : Prop :=
  c ∈ ["0"; "1"; "2"; "3"; "4"; "5"; "6"; "7"; "8"; "9"]%char.

Definition contains (needle hay : string) : Prop :=
  ∃ pre post, hay = pre +:+ needle +:+ post.

End Text.

(** ** Binary data: [atob], [Blob] *)

Module Binary.

Definition b64_value (c : ascii) : option N :=
  let n := N_of_ascii c in
  if ((65 <=? n) && (n <=? 90))%N then Some (n - 65)%N
  else if ((97 <=? n) && (n <=? 122))%N then Some (n - 71)%N
  else if ((48 <=? n) && (n <=? 57))%N then Some (n + 4)%N
  else if (n =? 43)%N then Some 62%N
  else if (n =? 47)%N then Some 63%N
  else None.

Definition is_ascii_whitespace (c : ascii) : bool :=
  let n := N_of_ascii c in
  ((n =? 9) || (n =? 10) || (n =? 12) || (n =? 13) || (n =? 32))%N.

Fixpoint remove_whitespace (s : string) : string :=
  match s with
  | EmptyString => EmptyString
  | String c s' =>
      if is_ascii_whitespace c then remove_whitespace s'
      else String c (remove_whitespace s')
  end.

(** Drops one or two trailing [=] signs. *)
Definition strip_padding (cs : list ascii) : list ascii :=
  match rev cs with
  | "="%char :: "="%char :: r => rev r
  | "="%char :: r => rev r
  | _ => cs
  end.

Fixpoint sextets (cs : list ascii) : option (list N) :=
  match cs with
  | [] => Some []
  | c :: cs' =>
      match b64_value c, sextets cs' with
      | Some v, Some vs => Some (v :: vs)
      | _, _ => None
      end
  end.

(** Four sextets give three bytes; a final group of three gives two
    bytes and a final group of two gives one. *)
Fixpoint decode_groups (vs : list N) : list N :=
  match vs with
  | a :: b :: c :: d :: rest =>
      let w := (a * 262144 + b * 4096 + c * 64 + d)%N in
      (w / 65536)%N :: ((w / 256) mod 256)%N :: (w mod 256)%N :: decode_groups rest
  | [a; b; c] =>
      let w := ((a * 4096 + b * 64 + c) / 4)%N in
      [(w / 256)%N; (w mod 256)%N]
  | [a; b] => [((a * 64 + b) / 16)%N]
  | _ => []
  end.

(** [atob(data)]: the forgiving base64 decoding.  The result is a binary
    string, one character of code 0 to 255 per decoded byte; [None]
    stands for the InvalidCharacterError exception. *)
Definition atob (data : string) : option string :=
  let cs := String.list_ascii_of_string (remove_whitespace data) in
  let cs := if (length cs mod 4 =? 0)%nat then strip_padding cs else cs in
  if (length cs mod 4 =? 1)%nat then None
  else match sextets cs with
       | Some vs => Some (String.string_of_list_ascii (map ascii_of_N (decode_groups vs)))
       | None => None
       end.

(** The bytes a base64 text stands for. *)
Definition base64_bytes (data : string) : option (list Byte.byte) :=
  match atob data with
  | Some s => Some (map byte_of_ascii (String.list_ascii_of_string s))
  | None => None
  end.

Definition byte_of_N (n : N) : Byte.byte :=
  default Byte.x00 (Byte.of_N n).

(** UTF-8 encoding of a string whose characters have codes below 256:
    codes below 128 take one byte, the others two. *)
Definition utf8_encode_char (c : ascii) : list Byte.byte :=
  let n := N_of_ascii c in
  if (n <? 128)%N then [byte_of_N n]
  else [byte_of_N (192 + n / 64); byte_of_N (128 + n mod 64)].

Definition utf8_encode (s : string) : list Byte.byte :=
  flat_map utf8_encode_char (String.list_ascii_of_string s).

Record Blob := {
  blob_bytes : list Byte.byte;
  blob_type : string
}.

(** [new Blob(parts, { type })] with string parts: every string part is
    appended UTF-8 encoded. *)
Definition new_Blob (parts : list string) (type : string) : Blob :=
  {| blob_bytes := flat_map utf8_encode parts; blob_type := type |}.

End Binary.

(** ** The service worker against a model of cache storage and network

    The handlers are promise chains; they are embedded in a monad that
    threads the world (cache storage and the log of network requests),
    reads the network, and settles as fulfilled or rejected.  The
    platform operations follow the Fetch, Cache and File API standards.
    A cache entry is keyed by the request URL as a string: relative URLs
    are not resolved, fragments and [Vary] headers are not modelled.  The
    promises of a [Promise.all] run in list order; the network answers
    as a function of the request during one run. *)

Module SW.
Import JS Tiles Binary.

Definition CACHE_NAME : string := "leeward-point-cache-v11".

Definition PRECACHE_URLS : list string := [
  "/";
  "/index.html";
  "/info.html";
  "/subcategory.html";
  "/search.html";
  "/map.html";
  "/admin.html";
  "/style.css";
  "/script.js";
  "/data.json";
  "/manifest.json";
  "/icon-192.png";
  "/icon-512.png";
  "/hero.png";
  "/hero-button.png";
  "/house-tour.html";
  "/howto.html";
  "/howto-item.html";
  "/topic.html";
  "/images/_incoming/0A740C08-D444-4C26-AC52-D4C65B1C6377.png";
  "/images/_incoming/0E8D1C7E-E189-4134-A62C-54BEAC462290.png";
  "/images/_incoming/0EA16F1C-6C3E-4E2A-80A9-3AB6CAE0186D.jpeg";
  "/images/_incoming/0EE26473-943E-4CA7-922F-7804FBF1A4E5.jpeg";
  "/images/_incoming/0F831DD5-FF18-4C1B-AF79-6870C1FBF2D.jpeg";
  "/images/_incoming/1A023195-03C2-45C2-8BC3-EE9A360D5381.jpeg";
  "/images/local_area/restaurant.png";
  "/images/local_area/cafe.png";
  "/images/local_area/bar_brewery.png";
  "/images/local_area/trail.png";
  "/images/local_area/beach.png"
].

(** *** Requests, responses, the world *)

Record Request := {
  url : string;
  method : string
}.

(** The request [fetch(url)] and [cache.add(url)] build from a URL. *)
Definition GET (u : string) : Request := {| url := u; method := "GET" |}.

Record Response := {
  status : Z;
  content_type : option string;
  body : list Byte.byte
}.

(** [response.ok]: a status from 200 to 299. *)
Definition ok (r : Response) : bool :=
  bool_decide (200 ≤ status r ≤ 299)%Z.

Inductive JsError :=
  | TypeError
  | InvalidStateError
  | InvalidCharacterError.

(** What the network does with a request: it answers with a response of
    some status, or the fetch fails. *)
Inductive FetchOutcome :=
  | Responds (r : Response)
  | NetworkFailure.

Definition Network := Request → FetchOutcome.

(** The cache storage of the origin, as the list of its named caches in
    creation order, each cache a finite map from request URL to response;
    and the log of the requests sent to the network, oldest first. *)
Record World := {
  storage : list (string * gmap string Response);
  requested : list Request
}.

Definition set_storage (st : list (string * gmap string Response)) (w : World) : World :=
  {| storage := st; requested := requested w |}.

Definition log_request (r : Request) (w : World) : World :=
  {| storage := storage w; requested := requested w ++ [r] |}.

Fixpoint store_lookup (name : string) (st : list (string * gmap string Response))
  : option (gmap string Response) :=
  match st with
  | [] => None
  | (n, c) :: st' => if decide (n = name) then Some c else store_lookup name st'
  end.

Definition store_update (name : string) (f : gmap string Response → gmap string Response)
  (st : list (string * gmap string Response)) : list (string * gmap string Response) :=
  map (λ p, if decide (p.1 = name) then (p.1, f p.2) else p) st.

(** The response stored under [key] in the cache called [name]. *)
Definition cached_in (st : list (string * gmap string Response)) (name key : string)
  : option Response :=
  match store_lookup name st with
  | Some c => c !! key
  | None => None
  end.

(** *** Promises as a state and error monad *)

Inductive Settled (A : Type) :=
  | Fulfilled (a : A)
  | Rejected (e : JsError).
Arguments Fulfilled {A} a.
Arguments Rejected {A} e.

Definition M (A : Type) : Type := Network → World → Settled A * World.

Definition resolve {A} (a : A) : M A := λ _ w, (Fulfilled a, w).

Definition throw {A} (e : JsError) : M A := λ _ w, (Rejected e, w).

Definition await {A B} (m : M A) (k : A → M B) : M B := λ net w,
  match m net w with
  | (Fulfilled a, w') => k a net w'
  | (Rejected e, w') => (Rejected e, w')
  end.

#[global] Instance M_ret : MRet M := @resolve.
#[global] Instance M_bind : MBind M := λ A B k m, await m k.

(** [try { m } catch (err) { h err }] and [promise.catch(h)]. *)
Definition try_catch {A} (m : M A) (h : JsError → M A) : M A := λ net w,
  match m net w with
  | (Fulfilled a, w') => (Fulfilled a, w')
  | (Rejected e, w') => h e net w'
  end.

(** A promise that is started and not awaited: its effects take place,
    its outcome is dropped. *)
Definition unawaited {A} (m : M A) : M unit := λ net w,
  (Fulfilled tt, (m net w).2).

(** [Promise.all] over promises that are all started: every one runs;
    the result is rejected with the first rejection, if any. *)
Fixpoint Promise_all {A} (ps : list (M A)) : M (list A) :=
  match ps with
  | [] => resolve []
  | p :: ps' => λ net w,
      match p net w with
      | (Fulfilled a, w1) =>
          match Promise_all ps' net w1 with
          | (Fulfilled rest, w2) => (Fulfilled (a :: rest), w2)
          | (Rejected e, w2) => (Rejected e, w2)
          end
      | (Rejected e, w1) => (Rejected e, (Promise_all ps' net w1).2)
      end
  end.

(** *** The platform: [fetch], [caches], [Cache] *)

Definition fetch (r : Request) : M Response := λ net w,
  match net r with
  | Responds resp => (Fulfilled resp, log_request r w)
  | NetworkFailure => (Rejected TypeError, log_request r w)
  end.

(** [caches.open(name)]: the cache is created, empty, when absent.  The
    handle of a cache is its name. *)
Definition caches_open (name : string) : M string := λ _ w,
  match store_lookup name (storage w) with
  | Some _ => (Fulfilled name, w)
  | None => (Fulfilled name, set_storage (storage w ++ [(name, ∅)]) w)
  end.

Definition caches_keys : M (list string) := λ _ w,
  (Fulfilled (map fst (storage w)), w).

Definition caches_delete (name : string) : M bool := λ _ w,
  match store_lookup name (storage w) with
  | Some _ =>
      (Fulfilled true,
       set_storage (filter (λ p, p.1 ≠ name) (storage w)) w)
  | None => (Fulfilled false, w)
  end.

(** Only GET requests match a cached entry. *)
Definition cache_match_in (c : gmap string Response) (r : Request) : option Response :=
  if decide (method r = "GET") then c !! url r else None.

(** [cache.match(request)] *)
Definition cache_match (cache : string) (r : Request) : M (option Response) := λ _ w,
  (Fulfilled (match store_lookup cache (storage w) with
              | Some c => cache_match_in c r
              | None => None
              end), w).

(** The first match over the caches in creation order. *)
Fixpoint first_match (st : list (string * gmap string Response)) (r : Request)
  : option Response :=
  match st with
  | [] => None
  | (_, c) :: st' =>
      match cache_match_in c r with
      | Some resp => Some resp
      | None => first_match st' r
      end
  end.

(** [caches.match(request)] *)
Definition caches_match (r : Request) : M (option Response) := λ _ w,
  (Fulfilled (first_match (storage w) r), w).

(** [cache.put(request, response)]: rejected for a request that is not
    a GET and for a partial (206) response. *)
Definition cache_put (cache : string) (r : Request) (resp : Response) : M unit := λ _ w,
  if decide (method r = "GET") then
    if decide (status resp = 206%Z) then (Rejected TypeError, w)
    else (Fulfilled tt,
          set_storage (store_update cache (λ c, <[url r := resp]> c) (storage w)) w)
  else (Rejected TypeError, w).

(** A response that [cache.add] and [cache.addAll] accept. *)
Definition addable (resp : Response) : bool :=
  ok resp && negb (bool_decide (status resp = 206%Z)).

(** [cache.add(url)]: fetch, then store unless the fetch failed or the
    response is not acceptable. *)
Definition cache_add (cache : string) (u : string) : M unit :=
  resp ← fetch (GET u);
  if addable resp then cache_put cache (GET u) resp else throw TypeError.

(** What the network gives for each URL of a batch, when every one of
    them is fetched and acceptable. *)
Fixpoint batch_responses (net : Network) (urls : list string)
  : option (list (string * Response)) :=
  match urls with
  | [] => Some []
  | u :: urls' =>
      match net (GET u), batch_responses net urls' with
      | Responds resp, Some rest =>
          if addable resp then Some ((u, resp) :: rest) else None
      | _, _ => None
      end
  end.

Definition put_entries (entries : list (string * Response)) (c : gmap string Response)
  : gmap string Response :=
  fold_left (λ acc e, <[e.1 := e.2]> acc) entries c.

(** [cache.addAll(urls)]: all the requests are sent; the entries are
    written together, and only when every fetch gave an acceptable
    response and no URL occurs twice in the batch. *)
Definition cache_addAll (cache : string) (urls : list string) : M unit := λ net w,
  let w1 := {| storage := storage w; requested := requested w ++ map GET urls |} in
  match batch_responses net urls with
  | None => (Rejected TypeError, w1)
  | Some entries =>
      if bool_decide (NoDup urls) then
        (Fulfilled tt, set_storage (store_update cache (put_entries entries) (storage w1)) w1)
      else (Rejected InvalidStateError, w1)
  end.

(** [new Response(blob)]: status 200, the blob's bytes as body and the
    blob's type, when it has one, as content type. *)
Definition new_Response (b : Blob) : Response := {|
  status := 200;
  content_type := if decide (blob_type b = "") then None else Some (blob_type b);
  body := blob_bytes b
|}.

(** *** The handlers *)

(** The install handler, for a list of site assets and a tile region. *)
Definition install (precacheUrls : list string) (bounds : BoundingRegion) : M unit :=
  cache ← caches_open CACHE_NAME;
  cache_addAll cache precacheUrls;;
  let tileUrls := generateTileUrls bounds in
  Promise_all (map (λ u, try_catch (cache_add cache u) (λ _, resolve tt)) tileUrls);;
  resolve tt.

Definition onInstall : M unit := install PRECACHE_URLS OFFLINE_TILE_BOUNDS.

Definition onActivate : M unit :=
  keys ← caches_keys;
  Promise_all (map (λ key,
    if decide (key ≠ CACHE_NAME)
    then deleted ← caches_delete key; resolve (Some deleted)
    else resolve None) keys);;
  resolve tt.

Definition FALLBACK_BASE64 : string :=
  "iVBORw0KGgoAAAANSUhEUgAAABAAAAAQCAYAAAAf8/9hAAAAMUlEQVR42mNgGAWjgH5gYmBI4T8GIhUyoCUjqYYGxBmUBkRsTAlgFQcAzi0AUAFhCNAODLZnAAAAAElFTkSuQmCC".

(** The fallback of the [catch] block. *)
Definition fallbackResponse : M Response :=
  match atob FALLBACK_BASE64 with
  | Some s => resolve (new_Response (new_Blob [s] "image/png"))
  | None => throw InvalidCharacterError
  end.

(** The block of the fetch handler for tile imagery (lines 256 to 277). *)
Definition tileBranch (request : Request) : M Response :=
  cache ← caches_open CACHE_NAME;
  cachedResponse ← cache_match cache request;
  match cachedResponse with
  | Some cached => resolve cached
  | None =>
      try_catch
        (response ← fetch request;
         (if decide (status response = 200%Z)
          then unawaited (cache_put cache request response)
          else resolve tt);;
         resolve response)
        (λ err, fallbackResponse)
  end.

(** The statements of the fetch handler for all other requests (lines
    280 and 281). *)
Definition otherBranch (request : Request) : M Response :=
  cached ← caches_match request;
  match cached with
  | Some resp => resolve resp
  | None => fetch request
  end.

(** Line 255 of the source from the slash that opens the regular
    expression literal to the end of the line. *)
Definition FETCH_CONDITION_SOURCE : string :=
  "/\.tile\.openstreetmap\.org\/.test(url)) {".

(** The body of the fetch listener for a regular expression [re] in its
    condition. *)
Definition fetchHandler (re : list RegExp.atom) (request : Request) : M Response :=
  let url := url request in
  if RegExp.test re url then tileBranch request else otherBranch request.

(** The fetch listener that the source text denotes: none when the
    regular expression literal of its condition is not one. *)
Definition fetchListener : option (Request → M Response) :=
  match RegExp.literal FETCH_CONDITION_SOURCE with
  | Some (body, _) => Some (fetchHandler (RegExp.parse body))
  | None => None
  end.

(** What becomes of a request of the page: the listener answers it
    when there is one; a request that nothing intercepts goes to the
    network. *)
Definition respond (request : Request) : M Response :=
  match fetchListener with
  | Some handler => handler request
  | None => fetch request
  end.

(** *** Vocabulary of the statements about the handlers *)

(** The tile-server host pattern of the fetch router. *)
Definition TILE_HOST_PATTERN : string := ".tile.openstreetmap.org/".

(** The entry the current generation holds for a request. *)
Definition current_hit (w : World) (r : Request) : option Response :=
  match store_lookup CACHE_NAME (storage w) with
  | Some c => cache_match_in c r
  | None => None
  end.

(** The generations that survive the deletion of [keys]. *)
Definition purge (keys : list string) (st : list (string * gmap string Response))
  : list (string * gmap string Response) :=
  filter (λ p, p.1 = CACHE_NAME ∨ p.1 ∉ keys) st.

Definition keep_current (st : list (string * gmap string Response))
  : list (string * gmap string Response) :=
  filter (λ p, p.1 = CACHE_NAME) st.

(** The fetch of [u] gives a response that can be stored. *)
Definition cacheableb (net : Network) (u : string) : bool :=
  match net (GET u) with
  | Responds resp => addable resp
  | NetworkFailure => false
  end.

(** What one swallowed [cache.add] leaves in the cache. *)
Definition add_tile (net : Network) (c : gmap string Response) (u : string)
  : gmap string Response :=
  match net (GET u) with
  | Responds resp => if addable resp then <[u := resp]> c else c
  | NetworkFailure => c
  end.

(** The current generation as [caches.open] finds or creates it. *)
Definition opened_cache (w : World) : gmap string Response :=
  default ∅ (store_lookup CACHE_NAME (storage w)).

(** *** Sample networks, worlds and requests *)

(** The network is down. *)
Definition offline : Network := λ _, NetworkFailure.

(** A network on which every request is answered with a 200. *)
Definition all_ok : Network :=
  λ _, Responds {| status := 200; content_type := None; body := [] |}.

Definition nothing_installed : World := {| storage := []; requested := [] |}.

Definition installed_empty : World :=
  {| storage := [(CACHE_NAME, ∅)]; requested := [] |}.

Definition three_generations : World := {|
  storage := [("leeward-point-cache-v1", ∅);
              ("leeward-point-cache-v10", ∅);
              ("leeward-point-cache-v11", ∅)];
  requested := []
|}.

Definition tile_request : Request :=
  GET "https://a.tile.openstreetmap.org/12/1103/1690.png".

Definition stored_tile : Response :=
  {| status := 200; content_type := Some "image/png"; body := [Byte.x89; Byte.x50] |}.

(** The current generation holds the tile of [tile_request]. *)
Definition tile_installed : World := {|
  storage := [(CACHE_NAME, {[ url tile_request := stored_tile ]})];
  requested := []
|}.

Definition not_found_response : Response :=
  {| status := 404; content_type := Some "text/plain"; body := [] |}.

(** A network that answers every request with a 404. *)
Definition not_found : Network := λ _, Responds not_found_response.

Definition new_page : Response :=
  {| status := 200; content_type := Some "text/html"; body := [Byte.x6e; Byte.x65; Byte.x77] |}.

(** The current generation holds the page [/index.html]. *)
Definition page_installed : World := {|
  storage := [(CACHE_NAME, {[ "/index.html" := new_page ]})];
  requested := []
|}.

(** A tile of zoom 13, which the install handler does not request. *)
Definition zoom13_tile : string := "https://a.tile.openstreetmap.org/13/2206/3380.png".

(** The current generation holds that tile and nothing else. *)
Definition zoom13_tile_stored : World := {|
  storage := [(CACHE_NAME, {[ zoom13_tile := stored_tile ]})];
  requested := []
|}.

(** A region without zoom levels. *)
Definition no_zoom_levels : BoundingRegion :=
  {| latMin := 0; latMax := 0; lonMin := 0; lonMax := 0; zoomLevels := [] |}.

End SW.

(** ** Vocabulary and samples of the further properties *)

Module Vocabulary.
Import Tiles SW.

(** The response that [cache.add] and [cache.addAll] store for a URL. *)
Definition fetched (net : Network) (u : string) : option Response :=
  match net (GET u) with
  | Responds resp => if addable resp then Some resp else None
  | NetworkFailure => None
  end.

(** The cache storage once [caches.open] has run for the current name. *)
Definition opened_storage (w : World) : list (string * gmap string Response) :=
  match store_lookup CACHE_NAME (storage w) with
  | Some _ => storage w
  | None => storage w ++ [(CACHE_NAME, ∅)]
  end.

End Vocabulary.

(** * Properties *)

#[local] Set Warnings "-clear-no-such-hyp".

Ltac run_monad :=
  unfold mbind, SW.M_bind, SW.await, SW.resolve, SW.throw, SW.try_catch, SW.unawaited.

(** ** Loops that only append *)

Module LoopFacts.
Import JS.

Lemma forEach_append {A B} (g : A → list B) (body : A → list B → list B) (arr : list A) :
  (∀ a s, body a s = s ++ g a) →
  ∀ s, forEach arr body s = s ++ (arr ≫= g).
Proof.
  intros Hbody. unfold forEach.
  induction arr as [|a arr IH]; intros s; simpl.
  - by rewrite app_nil_r.
  - rewrite IH, Hbody, <- app_assoc. done.
Qed.

Lemma for_count_append {B} (g : Z → list B) (body : Z → list B → list B) (k : nat) :
  (∀ i s, body i s = s ++ g i) →
  ∀ i s, for_count k i body s = s ++ (seqZ i (Z.of_nat k) ≫= g).
Proof.
  intros Hbody. induction k as [|k IH]; intros i s.
  - simpl. by rewrite app_nil_r.
  - cbn [for_count]. rewrite IH, Hbody, <- app_assoc.
    rewrite (seqZ_cons i (Z.of_nat (S k))) by lia.
    replace (Z.pred (Z.of_nat (S k))) with (Z.of_nat k) by lia.
    done.
Qed.

Lemma for_le_append {B} (g : Z → list B) (body : Z → list B → list B) (lo hi : Z) :
  (∀ i s, body i s = s ++ g i) →
  ∀ s, for_le lo hi body s = s ++ (seqZ lo (hi + 1 - lo) ≫= g).
Proof.
  intros Hbody s. unfold for_le.
  rewrite (for_count_append g) by done.
  destruct (decide (hi + 1 - lo ≤ 0)%Z).
  - replace (Z.to_nat (hi + 1 - lo)) with 0%nat by lia.
    by rewrite (seqZ_nil lo (hi + 1 - lo)) by lia.
  - by rewrite Z2Nat.id by lia.
Qed.


End LoopFacts.

(** ** Tile URLs, in exact arithmetic *)

Module TileFacts.
Import JS Tiles Text LoopFacts.

Lemma latLonToTile_components lat lon zoom :
  latLonToTile lat lon zoom = (xAt lon zoom, yAt lat zoom).
Proof.
  unfold latLonToTile, xAt, yAt, sec.
  replace (1 / cos (lat * PI / 180))%R with (/ cos (lat * PI / 180))%R; [done|].
  unfold Rdiv. by rewrite Rmult_1_l.
Qed.

Lemma generateTileUrls_rectangles b :
  generateTileUrls b = zoomLevels b ≫= rectangle b.
Proof.
  unfold generateTileUrls.
  rewrite (forEach_append (rectangle b)); [done|].
  intros zoom urls. rewrite !latLonToTile_components.
  unfold rectangle, xRange, yRange. cbn [fst snd].
  apply for_le_append. intros x urls1.
  apply for_le_append. intros y urls2.
  apply forEach_append. intros sub urls3. done.
Qed.

Lemma elem_of_rectangle b zoom u :
  u ∈ rectangle b zoom ↔
  ∃ x y sub,
    ((xRange b zoom).1 ≤ x ≤ (xRange b zoom).2)%Z ∧
    ((yRange b zoom).1 ≤ y ≤ (yRange b zoom).2)%Z ∧
    sub ∈ subdomains ∧ u = tileUrl sub zoom x y.
Proof.
  unfold rectangle. rewrite list_elem_of_bind. split.
  - intros (x & Hu & Hx). apply list_elem_of_bind in Hu as (y & Hu & Hy).
    apply list_elem_of_bind in Hu as (sub & Hu & Hsub).
    apply list_elem_of_singleton in Hu.
    apply elem_of_seqZ in Hx, Hy. exists x, y, sub. repeat split; try done; lia.
  - intros (x & y & sub & Hx & Hy & Hsub & ->).
    exists x. split; [|apply elem_of_seqZ; lia].
    apply list_elem_of_bind. exists y. split; [|apply elem_of_seqZ; lia].
    apply list_elem_of_bind. exists sub. split; [|done].
    by apply list_elem_of_singleton.
Qed.

Lemma pretty_N_char_digit x : is_digit (pretty_N_char x).
Proof.
  unfold is_digit, pretty_N_char.
  repeat case_match; set_solver.
Qed.

Lemma occurs_app c s t : occurs c (s +:+ t) ↔ occurs c s ∨ occurs c t.
Proof. induction s as [|d s IH]; simpl; [tauto|]. rewrite IH. tauto. Qed.

Lemma pretty_N_go_occurs c x s :
  occurs c (pretty_N_go x s) → occurs c s ∨ is_digit c.
Proof.
  revert s. induction (N.lt_wf_0 x) as [x _ IH]; intros s.
  assert (x = 0 ∨ 0 < x)%N as [->|Hpos] by lia.
  - rewrite pretty_N_go_0. auto.
  - rewrite pretty_N_go_step by done. intros Hocc.
    apply IH in Hocc; [|by apply N.div_lt].
    destruct Hocc as [[<- | Hs] | Hd]; auto using pretty_N_char_digit.
Qed.

Lemma pretty_Z_occurs c (z : Z) :
  occurs c (pretty z) → is_digit c ∨ c = "-"%char.
Proof.
  assert (HN : ∀ p, occurs c (pretty (N.pos p)) → is_digit c).
  { intros p. unfold pretty, pretty_N. case_decide; [done|].
    intros [[]|Hd]%pretty_N_go_occurs. done. }
  destruct z as [|p|p]; unfold pretty, pretty_Z.
  - simpl. intros [<- | []]. left. unfold is_digit. set_solver.
  - intros Hocc. left. by apply (HN p).
  - simpl. intros [<- | Hocc]; [by right|]. left. by apply (HN p).
Qed.

Lemma pretty_Z_no_slash (z : Z) : ¬ occurs "/" (pretty z).
Proof.
  intros [Hd | Hdash]%pretty_Z_occurs; [|done].
  unfold is_digit in Hd.
  repeat (apply elem_of_cons in Hd as [Hd | Hd]; [discriminate|]).
  by apply elem_of_nil in Hd.
Qed.

Lemma pretty_Z_no_dot (z : Z) : ¬ occurs "." (pretty z).
Proof.
  intros [Hd | Hdash]%pretty_Z_occurs; [|done].
  unfold is_digit in Hd.
  repeat (apply elem_of_cons in Hd as [Hd | Hd]; [discriminate|]).
  by apply elem_of_nil in Hd.
Qed.

(** A text is cut in one way only at the first occurrence of a character. *)
Lemma split_at_first c s1 s2 t1 t2 :
  ¬ occurs c s1 → ¬ occurs c s2 →
  s1 +:+ String c t1 = s2 +:+ String c t2 → s1 = s2 ∧ t1 = t2.
Proof.
  revert s2. induction s1 as [|d s1 IH]; intros [|e s2] H1 H2 Heq; simpl in *.
  - by injection Heq.
  - injection Heq as <- _. tauto.
  - injection Heq as -> _. tauto.
  - injection Heq as -> Heq. apply IH in Heq as [-> ->]; tauto.
Qed.

Lemma tileUrl_inj sub sub' zoom zoom' x x' y y' :
  sub ∈ subdomains → sub' ∈ subdomains →
  tileUrl sub zoom x y = tileUrl sub' zoom' x' y' →
  sub = sub' ∧ zoom = zoom' ∧ x = x' ∧ y = y'.
Proof.
  unfold subdomains, tileUrl. intros Hs Hs' Heq.
  assert (Hsub : sub = sub' ∧
    pretty zoom +:+ "/" +:+ pretty x +:+ "/" +:+ pretty y +:+ ".png"
    = pretty zoom' +:+ "/" +:+ pretty x' +:+ "/" +:+ pretty y' +:+ ".png").
  { repeat (apply elem_of_cons in Hs as [-> | Hs]);
    repeat (apply elem_of_cons in Hs' as [-> | Hs']);
    try (by apply elem_of_nil in Hs); try (by apply elem_of_nil in Hs');
    simpl in Heq; by simplify_eq. }
  destruct Hsub as [-> Hrest]. split; [done|].
  apply split_at_first in Hrest as [Hz Hrest]; try apply pretty_Z_no_slash.
  apply split_at_first in Hrest as [Hx Hrest]; try apply pretty_Z_no_slash.
  apply split_at_first in Hrest as [Hy _]; try apply pretty_Z_no_dot.
  by apply (inj pretty) in Hz, Hx, Hy.
Qed.

Lemma elem_of_generateTileUrls b u :
  u ∈ generateTileUrls b ↔
  ∃ zoom x y sub,
    zoom ∈ zoomLevels b ∧ InRectangle b zoom x y ∧
    sub ∈ subdomains ∧ u = tileUrl sub zoom x y.
Proof.
  rewrite generateTileUrls_rectangles, list_elem_of_bind. split.
  - intros (zoom & Hu & Hz).
    apply elem_of_rectangle in Hu as (x & y & sub & Hx & Hy & Hsub & ->).
    exists zoom, x, y, sub. split; [done|]. split; [by split|]. by split.
  - intros (zoom & x & y & sub & Hz & [Hx Hy] & Hsub & ->).
    exists zoom. split; [|done]. apply elem_of_rectangle. by exists x, y, sub.
Qed.

End TileFacts.

(** ** Rounding to the nearest double *)

Module DoubleFacts.
Import Double.
Local Open Scope Q_scope.

Lemma pow2_pos e : 0 < pow2 e.
Proof. unfold pow2. apply Qpower_0_lt. reflexivity. Qed.

Lemma pow2_add a b : pow2 (a + b) == pow2 a * pow2 b.
Proof. unfold pow2. apply Qpower_plus. discriminate. Qed.

Lemma pow2_le a b : (a ≤ b)%Z → pow2 a <= pow2 b.
Proof. intros. unfold pow2. apply Qpower_le_compat_l; [done|discriminate]. Qed.

Lemma pow2_lt a b : (a < b)%Z → pow2 a < pow2 b.
Proof. intros. unfold pow2. apply Qpower_lt_compat_l; [done|reflexivity]. Qed.

Lemma pow2_lt_inv a b : pow2 a < pow2 b → (a < b)%Z.
Proof. intros. unfold pow2 in *. eapply Qpower_lt_compat_l_inv; [done|reflexivity]. Qed.

Lemma pow2_nonneg_Z e : (0 ≤ e)%Z → pow2 e == inject_Z (2 ^ e).
Proof. intros. unfold pow2. by rewrite Zpower_Qpower. Qed.

Lemma pow2_sub a b : pow2 (a - b) == pow2 a / pow2 b.
Proof. unfold pow2. apply Qpower_minus. discriminate. Qed.

(** ** Rounding to the nearest integer, ties to even *)

Lemma rne_int z : rne (inject_Z z) = z.
Proof.
  unfold rne. rewrite Qfloor_Z.
  replace (Qcompare (inject_Z z - inject_Z z) (1 # 2)) with Lt; [done|].
  symmetry. apply Qlt_alt. unfold Qminus. rewrite Qplus_opp_r. reflexivity.
Qed.

Lemma rne_cases t :
  (rne t = Qfloor t ∧ t - inject_Z (Qfloor t) <= 1 # 2) ∨
  (rne t = (Qfloor t + 1)%Z ∧ 1 # 2 <= t - inject_Z (Qfloor t)).
Proof.
  unfold rne. destruct (Qcompare_spec (t - inject_Z (Qfloor t)) (1 # 2)) as [H|H|H].
  - destruct (Z.even (Qfloor t)); [left|right]; split; try done; rewrite H; lra.
  - left. split; [done|lra].
  - right. split; [done|lra].
Qed.

Lemma rne_mono t1 t2 : t1 <= t2 → (rne t1 ≤ rne t2)%Z.
Proof.
  intros Ht.
  pose proof (Qfloor_resp_le _ _ Ht) as Hf.
  destruct (Z.eq_dec (Qfloor t1) (Qfloor t2)) as [Heq|Hne].
  - unfold rne. rewrite Heq.
    destruct (Qcompare_spec (t1 - inject_Z (Qfloor t2)) (1 # 2)) as [H1|H1|H1];
    destruct (Qcompare_spec (t2 - inject_Z (Qfloor t2)) (1 # 2)) as [H2|H2|H2];
      try lia; try (destruct (Z.even (Qfloor t2)); lia); exfalso; lra.
  - destruct (rne_cases t1) as [[-> _]|[-> _]], (rne_cases t2) as [[-> _]|[-> _]]; lia.
Qed.

Lemma rne_ge z t : inject_Z z <= t → (z ≤ rne t)%Z.
Proof. intros H. rewrite <- (rne_int z). by apply rne_mono. Qed.

Lemma rne_le z t : t <= inject_Z z → (rne t ≤ z)%Z.
Proof. intros H. rewrite <- (rne_int z). by apply rne_mono. Qed.

Lemma rne_comp t1 t2 : t1 == t2 → rne t1 = rne t2.
Proof.
  intros H. apply Z.le_antisymm; apply rne_mono; rewrite H; apply Qle_refl.
Qed.


(** ** The binary exponent of a positive rational *)

Lemma Q_as_quotient a : a * inject_Z (Zpos (Qden a)) == inject_Z (Qnum a).
Proof.
  destruct a as [n d]. unfold Qeq, Qmult, inject_Z. simpl. lia.
Qed.

Lemma ilog2_spec a : 0 < a → pow2 (ilog2 a) <= a ∧ a < pow2 (ilog2 a + 1).
Proof.
  intros Ha.
  assert (Hn : (0 < Qnum a)%Z).
  { destruct a as [n d]. unfold Qlt in Ha. simpl in *. lia. }
  pose proof (Z.log2_spec _ Hn) as [Hn1 Hn2].
  assert (Hd : (0 < Zpos (Qden a))%Z) by lia.
  pose proof (Z.log2_spec _ Hd) as [Hd1 Hd2].
  pose proof (Z.log2_nonneg (Qnum a)) as Hln.
  pose proof (Z.log2_nonneg (Zpos (Qden a))) as Hld.
  set (ln := Z.log2 (Qnum a)) in *. set (ld := Z.log2 (Zpos (Qden a))) in *.
  pose proof (Q_as_quotient a) as Hq.
  set (N := inject_Z (Qnum a)) in *. set (D := inject_Z (Zpos (Qden a))) in *.
  assert (HD : 0 < D) by (unfold D; change 0 with (inject_Z 0); rewrite <- Zlt_Qlt; lia).
  assert (HN1 : pow2 ln <= N).
  { rewrite pow2_nonneg_Z by done. unfold N. by rewrite <- Zle_Qle. }
  assert (HN2 : N < pow2 (ln + 1)).
  { rewrite pow2_nonneg_Z by lia. unfold N. rewrite <- Zlt_Qlt.
    by replace (ln + 1)%Z with (Z.succ ln) by lia. }
  assert (HD1 : pow2 ld <= D).
  { rewrite pow2_nonneg_Z by done. unfold D. by rewrite <- Zle_Qle. }
  assert (HD2 : D < pow2 (ld + 1)).
  { rewrite pow2_nonneg_Z by lia. unfold D. rewrite <- Zlt_Qlt.
    by replace (ld + 1)%Z with (Z.succ ld) by lia. }
  assert (Hup : a < pow2 (ln - ld + 1)).
  { apply (Qmult_lt_r _ _ D HD). rewrite Hq.
    eapply Qlt_le_trans; [exact HN2|].
    replace (ln + 1)%Z with ((ln - ld + 1) + ld)%Z by lia.
    rewrite pow2_add. apply Qmult_le_l; [apply pow2_pos|done]. }
  assert (Hlo : pow2 (ln - ld - 1) <= a).
  { apply (Qmult_le_r _ _ D HD). rewrite Hq.
    eapply Qle_trans; [|exact HN1].
    replace ln with ((ln - ld - 1) + (ld + 1))%Z at 2 by lia.
    rewrite pow2_add. apply Qmult_le_l; [apply pow2_pos|]. by apply Qlt_le_weak. }
  unfold ilog2. fold ln ld.
  destruct (Qle_bool (pow2 (ln - ld)) a) eqn:Hb.
  - apply Qle_bool_iff in Hb. done.
  - split; [done|].
    replace (ln - ld - 1 + 1)%Z with (ln - ld)%Z by lia.
    apply Qnot_le_lt. intros Hc. apply Qle_bool_iff in Hc. congruence.
Qed.

Lemma ilog2_unique a e : pow2 e <= a → a < pow2 (e + 1) → ilog2 a = e.
Proof.
  intros H1 H2.
  assert (Ha : 0 < a) by (eapply Qlt_le_trans; [apply pow2_pos|done]).
  destruct (ilog2_spec a Ha) as [H3 H4].
  assert (e < ilog2 a + 1)%Z by (apply pow2_lt_inv; eapply Qle_lt_trans; done).
  assert (ilog2 a < e + 1)%Z by (apply pow2_lt_inv; eapply Qle_lt_trans; done).
  lia.
Qed.

Lemma ilog2_mono a b : 0 < a → a <= b → (ilog2 a ≤ ilog2 b)%Z.
Proof.
  intros Ha Hab.
  assert (Hb : 0 < b) by (eapply Qlt_le_trans; done).
  destruct (ilog2_spec a Ha) as [H1 _], (ilog2_spec b Hb) as [_ H2].
  assert (ilog2 a < ilog2 b + 1)%Z; [|lia].
  apply pow2_lt_inv. eapply Qle_lt_trans; [exact H1|]. eapply Qle_lt_trans; done.
Qed.


(** ** Rounding a magnitude *)

Lemma Qdiv_le_mono a b c : 0 < c → a <= b → a / c <= b / c.
Proof.
  intros Hc Hab. apply Qle_shift_div_l; [done|].
  unfold Qdiv. rewrite <- Qmult_assoc, (Qmult_comm (/ c)), Qmult_inv_r, Qmult_1_r; [done|].
  intros Hz. rewrite Hz in Hc. by apply Qlt_irrefl in Hc.
Qed.

Lemma Qdiv_mult_cancel a c : 0 < c → a / c * c == a.
Proof.
  intros Hc. unfold Qdiv. rewrite <- Qmult_assoc, (Qmult_comm (/ c)), Qmult_inv_r, Qmult_1_r; [done|].
  intros Hz. rewrite Hz in Hc. by apply Qlt_irrefl in Hc.
Qed.

Lemma round_mag_zero a : a == 0 → round_mag a == 0.
Proof.
  intros Ha. unfold round_mag.
  set (k := (Z.max (ilog2 a) (-1022) - 52)%Z).
  rewrite (rne_comp _ (inject_Z 0)).
  - rewrite rne_int. apply Qmult_0_l.
  - rewrite Ha. unfold Qdiv. apply Qmult_0_l.
Qed.

Lemma round_mag_nonneg a : 0 <= a → 0 <= round_mag a.
Proof.
  intros Ha. unfold round_mag.
  set (k := (Z.max (ilog2 a) (-1022) - 52)%Z).
  apply Qmult_le_0_compat; [|apply Qlt_le_weak, pow2_pos].
  change 0 with (inject_Z 0). rewrite <- Zle_Qle. apply rne_ge.
  apply Qle_shift_div_l; [apply pow2_pos|]. by rewrite Qmult_0_l.
Qed.

Lemma round_mag_mono a b : 0 <= a → a <= b → round_mag a <= round_mag b.
Proof.
  intros Ha Hab.
  destruct (Qeq_dec a 0) as [Hz|Hnz].
  { rewrite (round_mag_zero a Hz). apply round_mag_nonneg. by rewrite <- Hz. }
  assert (Hpos : 0 < a).
  { apply Qle_lt_or_eq in Ha as [?|He]; [done|]. by symmetry in He. }
  assert (Hb : 0 < b) by (eapply Qlt_le_trans; done).
  pose proof (ilog2_mono a b Hpos Hab) as He.
  destruct (ilog2_spec a Hpos) as [_ Ha2], (ilog2_spec b Hb) as [Hb1 _].
  unfold round_mag.
  set (ea := ilog2 a) in *. set (eb := ilog2 b) in *.
  set (ka := (Z.max ea (-1022) - 52)%Z). set (kb := (Z.max eb (-1022) - 52)%Z).
  destruct (Z.eq_dec ka kb) as [Hk|Hk].
  - rewrite Hk. apply Qmult_le_compat_r; [|apply Qlt_le_weak, pow2_pos].
    rewrite <- Zle_Qle. apply rne_mono. apply Qdiv_le_mono; [apply pow2_pos|done].
  - assert (Hlt : (ea < eb ∧ -1022 < eb)%Z) by lia.
    assert (Hkb : kb = (eb - 52)%Z) by lia.
    apply Qle_trans with (pow2 eb).
    + assert (Hn : (0 ≤ eb - ka)%Z) by lia.
      apply Qle_trans with (inject_Z (2 ^ (eb - ka)) * pow2 ka).
      * apply Qmult_le_compat_r; [|apply Qlt_le_weak, pow2_pos].
        rewrite <- Zle_Qle. apply rne_le.
        rewrite <- pow2_nonneg_Z by done.
        apply Qle_shift_div_r; [apply pow2_pos|].
        rewrite <- pow2_add. replace (eb - ka + ka)%Z with eb by lia.
        apply Qlt_le_weak. eapply Qlt_le_trans; [exact Ha2|]. apply pow2_le. lia.
      * rewrite <- pow2_nonneg_Z by done. rewrite <- pow2_add.
        replace (eb - ka + ka)%Z with eb by lia. apply Qle_refl.
    + apply Qle_trans with (inject_Z (2 ^ 52) * pow2 kb).
      * rewrite <- pow2_nonneg_Z by lia. rewrite <- pow2_add.
        replace (52 + kb)%Z with eb by lia. apply Qle_refl.
      * apply Qmult_le_compat_r; [|apply Qlt_le_weak, pow2_pos].
        rewrite <- Zle_Qle. apply rne_ge.
        rewrite <- pow2_nonneg_Z by lia.
        apply Qle_shift_div_l; [apply pow2_pos|].
        rewrite <- pow2_add. replace (52 + kb)%Z with eb by lia. done.
Qed.

Lemma round_mag_comp a b : 0 <= a → a == b → round_mag a == round_mag b.
Proof.
  intros Ha Hab. apply Qle_antisym; apply round_mag_mono; try done.
  - rewrite Hab. apply Qle_refl.
  - by rewrite <- Hab.
  - rewrite Hab. apply Qle_refl.
Qed.

(** A magnitude that is a double rounds to itself. *)
Lemma round_mag_exact a z k0 :
  (0 ≤ z < 2 ^ 53)%Z → (-1074 ≤ k0)%Z → a == inject_Z z * pow2 k0 → round_mag a == a.
Proof.
  intros Hz Hk Ha.
  destruct (Z.eq_dec z 0%Z) as [->|Hnz].
  { assert (a == 0) as H0 by (rewrite Ha; apply Qmult_0_l).
    rewrite (round_mag_zero a H0). by symmetry. }
  assert (Hpos : 0 < a).
  { rewrite Ha. apply Qmult_lt_0_compat; [|apply pow2_pos].
    change 0 with (inject_Z 0). rewrite <- Zlt_Qlt. lia. }
  destruct (ilog2_spec a Hpos) as [H1 _].
  assert (He : (ilog2 a < 53 + k0)%Z).
  { apply pow2_lt_inv. eapply Qle_lt_trans; [exact H1|].
    rewrite Ha, pow2_add. apply Qmult_lt_compat_r; [apply pow2_pos|].
    rewrite pow2_nonneg_Z by lia. rewrite <- Zlt_Qlt. lia. }
  unfold round_mag. set (k := (Z.max (ilog2 a) (-1022) - 52)%Z).
  assert (Hkk : (0 ≤ k0 - k)%Z) by lia.
  assert (Ht : a / pow2 k == inject_Z (z * 2 ^ (k0 - k))).
  { rewrite inject_Z_mult, <- pow2_nonneg_Z by done.
    apply Qle_antisym.
    - apply Qle_shift_div_r; [apply pow2_pos|].
      rewrite <- Qmult_assoc, <- pow2_add. replace (k0 - k + k)%Z with k0 by lia.
      rewrite Ha. apply Qle_refl.
    - apply Qle_shift_div_l; [apply pow2_pos|].
      rewrite <- Qmult_assoc, <- pow2_add. replace (k0 - k + k)%Z with k0 by lia.
      rewrite Ha. apply Qle_refl. }
  rewrite (rne_comp _ _ Ht), rne_int, <- Ht.
  apply Qdiv_mult_cancel, pow2_pos.
Qed.


(** ** Rounding a signed rational *)

Lemma negative_true q : negative q = true ↔ q < 0.
Proof.
  unfold negative. rewrite negb_true_iff. split.
  - intros H. apply Qnot_le_lt. intros Hc. apply Qle_bool_iff in Hc. congruence.
  - intros H. destruct (Qle_bool 0 q) eqn:Hb; [|done].
    apply Qle_bool_iff in Hb. exfalso. lra.
Qed.

Lemma negative_false q : negative q = false ↔ 0 <= q.
Proof.
  unfold negative. rewrite negb_false_iff. apply Qle_bool_iff.
Qed.

Lemma nearest_nonneg q : 0 <= q → nearest q == round_mag q ∧ 0 <= nearest q.
Proof.
  intros Hq. unfold nearest. rewrite (proj2 (negative_false q) Hq).
  assert (round_mag (Qabs q) == round_mag q) as ->.
  { apply round_mag_comp; [apply Qabs_nonneg|by apply Qabs_pos]. }
  split; [done|by apply round_mag_nonneg].
Qed.

Lemma nearest_neg q : q < 0 → nearest q == - round_mag (- q) ∧ nearest q <= 0.
Proof.
  intros Hq. unfold nearest. rewrite (proj2 (negative_true q) Hq).
  assert (round_mag (Qabs q) == round_mag (- q)) as ->.
  { apply round_mag_comp; [apply Qabs_nonneg|apply Qabs_neg; lra]. }
  split; [done|]. assert (0 <= round_mag (- q)) by (apply round_mag_nonneg; lra). lra.
Qed.

Lemma nearest_mono q1 q2 : q1 <= q2 → nearest q1 <= nearest q2.
Proof.
  intros H.
  destruct (Qlt_le_dec q1 0) as [H1|H1], (Qlt_le_dec q2 0) as [H2|H2].
  - destruct (nearest_neg _ H1) as [-> _], (nearest_neg _ H2) as [-> _].
    assert (round_mag (- q2) <= round_mag (- q1)) by (apply round_mag_mono; lra). lra.
  - destruct (nearest_neg _ H1) as [_ ?], (nearest_nonneg _ H2) as [_ ?]. lra.
  - exfalso. lra.
  - destruct (nearest_nonneg _ H1) as [-> _], (nearest_nonneg _ H2) as [-> _].
    by apply round_mag_mono.
Qed.

Lemma nearest_comp q1 q2 : q1 == q2 → nearest q1 == nearest q2.
Proof.
  intros H. apply Qle_antisym; apply nearest_mono; rewrite H; apply Qle_refl.
Qed.

#[global] Instance nearest_proper : Proper (Qeq ==> Qeq) nearest.
Proof. intros q1 q2. apply nearest_comp. Qed.

Lemma nearest_exact q : representable q → nearest q == q.
Proof.
  intros (z & k & Hz & Hk & Hq).
  destruct (Qlt_le_dec q 0) as [Hneg|Hpos].
  - destruct (nearest_neg _ Hneg) as [-> _].
    rewrite (round_mag_exact (- q) (- z) k); [lra| |done|].
    + assert (z < 0)%Z; [|lia].
      destruct (Z_lt_le_dec z 0%Z) as [?|Hc]; [done|exfalso].
      assert (0 <= inject_Z z * pow2 k); [|lra].
      apply Qmult_le_0_compat; [|apply Qlt_le_weak, pow2_pos].
      change 0 with (inject_Z 0). by rewrite <- Zle_Qle.
    + rewrite Hq, inject_Z_opp. lra.
  - destruct (nearest_nonneg _ Hpos) as [-> _].
    apply (round_mag_exact q z k); [|done|done].
    assert (0 ≤ z)%Z; [|lia].
    destruct (Z_lt_le_dec z 0%Z) as [Hc|?]; [exfalso|done].
    assert (0 < (- inject_Z z) * pow2 k); [|lra].
    apply Qmult_lt_0_compat; [|apply pow2_pos].
    rewrite <- inject_Z_opp. change 0 with (inject_Z 0). rewrite <- Zlt_Qlt. lia.
Qed.



(** ** Results that stay finite *)

Lemma value_zero b : value (zero b) = Some 0.
Proof. by destruct b. Qed.

Lemma pow2_1023_exact : round_mag (pow2 1023) == pow2 1023.
Proof.
  apply (round_mag_exact _ 1 1023); [lia|lia|]. rewrite Qmult_1_l. done.
Qed.

Lemma round_finite nz q :
  Qabs q <= pow2 1023 → ∃ v, value (round nz q) = Some v ∧ v == nearest q.
Proof.
  intros Hq. unfold round.
  destruct (Qeq_bool q 0) eqn:H0.
  - apply Qeq_bool_iff in H0. exists 0. split; [apply value_zero|].
    rewrite (nearest_comp q 0 H0). by vm_compute.
  - assert (Hv : Qabs (nearest q) <= pow2 1023).
    { rewrite <- pow2_1023_exact.
      destruct (Qlt_le_dec q 0) as [Hneg|Hpos].
      - destruct (nearest_neg _ Hneg) as [-> _]. rewrite Qabs_opp.
        rewrite Qabs_pos by (apply round_mag_nonneg; lra).
        apply round_mag_mono; [lra|]. rewrite <- Qabs_neg by lra. done.
      - destruct (nearest_nonneg _ Hpos) as [-> _].
        rewrite Qabs_pos by (by apply round_mag_nonneg).
        apply round_mag_mono; [done|]. by rewrite <- (Qabs_pos q). }
    destruct (Qle_bool (pow2 1024) (Qabs (nearest q))) eqn:Hov.
    { apply Qle_bool_iff in Hov. exfalso.
      pose proof (pow2_lt 1023 1024 ltac:(lia)). lra. }
    destruct (Qeq_bool (nearest q) 0) eqn:Hz.
    + apply Qeq_bool_iff in Hz. exists 0. split; [apply value_zero|by symmetry].
    + exists (Qred (nearest q)). split; [done|apply Qred_correct].
Qed.


(** ** The operations on finite numbers *)

#[local] Arguments pow2 : simpl never.
#[local] Arguments round : simpl never.
#[local] Arguments nearest : simpl never.
#[local] Arguments Qabs : simpl never.
#[local] Arguments Qplus : simpl never.
#[local] Arguments Qmult : simpl never.
#[local] Arguments Qdiv : simpl never.
#[local] Arguments Qopp : simpl never.

Lemma value_val x a : value x = Some a → val x = a ∧ (x = NegZero ∨ x = Fin a).
Proof. destruct x; simpl; intros; simplify_eq; auto. Qed.

Lemma add_value x y a b :
  value x = Some a → value y = Some b → Qabs (a + b) <= pow2 1023 →
  ∃ v, value (add x y) = Some v ∧ v == nearest (a + b).
Proof.
  intros Hx Hy Hb.
  destruct (value_val _ _ Hx) as [Hvx [->| ->]], (value_val _ _ Hy) as [Hvy [->| ->]];
    cbn [add val sign value] in *; simplify_eq; by apply round_finite.
Qed.

Lemma opp_value y b : value y = Some b → ∃ b', value (opp y) = Some b' ∧ b' == - b.
Proof.
  intros Hy. destruct (value_val _ _ Hy) as [_ [->| ->]]; simpl in *; simplify_eq.
  - by exists 0.
  - destruct (Qeq_bool b 0) eqn:H0.
    + apply Qeq_bool_iff in H0. exists 0. split; [done|]. rewrite H0. done.
    + by exists (- b).
Qed.

Lemma sub_value x y a b :
  value x = Some a → value y = Some b → Qabs (a - b) <= pow2 1023 →
  ∃ v, value (sub x y) = Some v ∧ v == nearest (a - b).
Proof.
  intros Hx Hy Hb. destruct (opp_value _ _ Hy) as (b' & Hy' & Hb').
  destruct (add_value x (opp y) a b' Hx Hy') as (v & Hv & Hvn).
  { rewrite Hb'. done. }
  exists v. split; [done|]. rewrite Hvn. apply nearest_comp. rewrite Hb'. done.
Qed.

Lemma mul_value x y a b :
  value x = Some a → value y = Some b → Qabs (a * b) <= pow2 1023 →
  ∃ v, value (mul x y) = Some v ∧ v == nearest (a * b).
Proof.
  intros Hx Hy Hb.
  destruct (value_val _ _ Hx) as [Hvx [->| ->]], (value_val _ _ Hy) as [Hvy [->| ->]];
    cbn [mul val sign value] in *; simplify_eq; by apply round_finite.
Qed.

Lemma div_value x y a b :
  value x = Some a → value y = Some b → ¬ b == 0 → Qabs (a / b) <= pow2 1023 →
  ∃ v, value (div x y) = Some v ∧ v == nearest (a / b).
Proof.
  intros Hx Hy Hnz Hb.
  assert (is_zero y = false) as Hz.
  { destruct (value_val _ _ Hy) as [_ [->| ->]]; simpl in *; simplify_eq.
    - by destruct Hnz.
    - destruct (Qeq_bool b 0) eqn:H0; [|done]. by apply Qeq_bool_iff in H0. }
  destruct (value_val _ _ Hx) as [Hvx [->| ->]], (value_val _ _ Hy) as [Hvy [->| ->]];
    cbn [div val sign value] in *; simplify_eq; rewrite ?Hz; by apply round_finite.
Qed.


Lemma index_floor x a : value x = Some a → index (Math_floor x) = Some (Qfloor a).
Proof.
  intros Hx. destruct (value_val _ _ Hx) as [_ [->| ->]]; cbn [Math_floor index value] in *;
    simplify_eq; [done|].
  rewrite Qfloor_Z. by rewrite Qeq_bool_refl.
Qed.



End DoubleFacts.


(** ** Tiles in doubles *)

Module DoubleTileFacts.
Import JS Double DoubleTiles DoubleVocabulary LoopFacts DoubleFacts.
#[local] Open Scope Q_scope.
#[local] Arguments pow2 : simpl never.
#[local] Arguments round : simpl never.
#[local] Arguments nearest : simpl never.

Lemma value_int z : value (int z) = Some (inject_Z z).
Proof. done. Qed.

Lemma abs_le_bound a lo hi :
  lo <= a → a <= hi → - pow2 1023 <= lo → hi <= pow2 1023 → Qabs a <= pow2 1023.
Proof. intros. apply Qabs_Qle_condition. split; lra. Qed.























(** ** The arithmetic of [latLonToTile] *)

Lemma between_nearest lo e hi v :
  v == nearest e → lo <= e → e <= hi → nearest lo <= v ∧ v <= nearest hi.
Proof. intros -> ??. split; by apply nearest_mono. Qed.


Lemma pow2_1023_large a : -1024 <= a → a <= 1024 → Qabs a <= pow2 1023.
Proof.
  intros. apply Qabs_Qle_condition.
  assert (pow2 10 <= pow2 1023) by (apply pow2_le; lia).
  assert (pow2 10 == 1024) by (by vm_compute). split; lra.
Qed.

Lemma Math_pow2_value zoom :
  (-1074 ≤ zoom ≤ 1023)%Z → ∃ v, value (Math_pow2 zoom) = Some v ∧ v == pow2 zoom.
Proof.
  intros Hz. unfold Math_pow2.
  destruct (round_finite false (pow2 zoom)) as (v & Hv & Hvn).
  { rewrite Qabs_pos by apply Qlt_le_weak, pow2_pos. apply pow2_le. lia. }
  exists v. split; [done|]. rewrite Hvn. apply nearest_exact.
  exists 1%Z, zoom. split; [lia|split; [lia|]]. by rewrite Qmult_1_l.
Qed.






Lemma Qdiv_360 a : a / 360 == a * (1 # 360).
Proof. unfold Qdiv. reflexivity. Qed.

Lemma Qdiv_2 a : a / 2 == a * (1 # 2).
Proof. unfold Qdiv. reflexivity. Qed.










(** A double in [0, 1 - 2^-53] scaled by [2^zoom] and floored is a tile
    index of that zoom. *)
Lemma scaled_floor_in_grid h vh zoom :
  value h = Some vh → 0 <= vh → vh <= 1 - pow2 (-53) → (0 ≤ zoom ≤ 1023)%Z →
  ∃ z, index (Math_floor (mul h (Math_pow2 zoom))) = Some z ∧ (0 ≤ z < 2 ^ zoom)%Z.
Proof.
  intros Hh H0 H1 Hzoom.
  pose proof (pow2_pos zoom) as HP.
  assert (Hpz : pow2 zoom == inject_Z (2 ^ zoom)) by (apply pow2_nonneg_Z; lia).
  assert (Hp53 : pow2 (-53) == 1 # 9007199254740992) by (vm_compute; reflexivity).
  destruct (Math_pow2_value zoom) as (vn & Hvn & Hnn); [lia|].
  assert (Hlo : 0 <= vh * vn) by (rewrite Hnn; apply Qmult_le_0_compat; lra).
  assert (Hhi : vh * vn <= (1 - pow2 (-53)) * pow2 zoom).
  { rewrite Hnn. apply Qmult_le_compat_r; lra. }
  assert (Hrep : nearest ((1 - pow2 (-53)) * pow2 zoom) == (1 - pow2 (-53)) * pow2 zoom).
  { apply nearest_exact. exists (2 ^ 53 - 1)%Z, (zoom - 53)%Z. split; [lia|split; [lia|]].
    replace (zoom - 53)%Z with (zoom + -53)%Z by lia. rewrite pow2_add, Hp53.
    set (P := pow2 zoom). change (inject_Z (2 ^ 53 - 1)) with 9007199254740991. ring. }
  assert (Hsmall : (1 - pow2 (-53)) * pow2 zoom < pow2 zoom).
  { rewrite Hp53. set (P := pow2 zoom) in *. lra. }
  destruct (mul_value h (Math_pow2 zoom) vh vn Hh Hvn) as (v & Hv & Hn).
  { apply Qabs_Qle_condition.
    assert (pow2 zoom <= pow2 1023) by (apply pow2_le; lia).
    pose proof (pow2_pos 1023). set (P := pow2 zoom) in *. set (B := pow2 1023) in *.
    split; lra. }
  destruct (between_nearest _ _ _ _ Hn Hlo Hhi) as [Hvlo Hvhi].
  rewrite Hrep in Hvhi.
  assert (nearest 0 == 0) as E0 by (vm_compute; reflexivity). rewrite E0 in Hvlo.
  exists (Qfloor v). split; [by apply index_floor|]. split.
  - change 0%Z with (Qfloor 0). by apply Qfloor_resp_le.
  - rewrite Zlt_Qlt, <- Hpz. eapply Qle_lt_trans; [apply Qfloor_le|].
    eapply Qle_lt_trans; done.
Qed.

(** The column stays inside the grid up to the largest longitude whose
    sum with 180 is below 360. *)
Lemma column_in_grid lon q zoom :
  value lon = Some q → -180 <= q → q <= LON_MAX → (0 ≤ zoom ≤ 1023)%Z →
  ∃ x, index (Math_floor (mul (div (add lon (int 180)) (int 360)) (Math_pow2 zoom))) = Some x ∧
       (0 ≤ x < 2 ^ zoom)%Z.
Proof.
  intros Hlon Hq1 Hq2 Hzoom. unfold LON_MAX in Hq2.
  assert (Hp44 : pow2 (-44) == 1 # 17592186044416) by (vm_compute; reflexivity).
  assert (Hp53 : pow2 (-53) == 1 # 9007199254740992) by (vm_compute; reflexivity).
  rewrite Hp44 in Hq2.
  (* lon + 180 *)
  assert (Hlo1 : 0 <= q + 180) by lra.
  assert (Hhi1 : q + 180 <= 360 - (1 # 17592186044416)) by lra.
  destruct (add_value lon (int 180) q 180 Hlon (value_int 180)) as (v1 & Hv1 & Hn1).
  { apply pow2_1023_large; lra. }
  destruct (between_nearest _ _ _ _ Hn1 Hlo1 Hhi1) as [Hv1lo Hv1hi].
  assert (nearest 0 == 0) as E0 by (vm_compute; reflexivity).
  assert (nearest (360 - (1 # 17592186044416)) == 360 - (1 # 17592186044416)) as E1
    by (vm_compute; reflexivity).
  rewrite E0 in Hv1lo. rewrite E1 in Hv1hi.
  (* / 360 *)
  destruct (div_value _ (int 360) v1 360 Hv1 (value_int 360)) as (v2 & Hv2 & Hn2).
  { discriminate. }
  { rewrite Qdiv_360. apply pow2_1023_large; lra. }
  rewrite Qdiv_360 in Hn2.
  assert (Hlo2 : 0 * (1 # 360) <= v1 * (1 # 360)) by lra.
  assert (Hhi2 : v1 * (1 # 360) <= (360 - (1 # 17592186044416)) * (1 # 360)) by lra.
  destruct (between_nearest _ _ _ _ Hn2 Hlo2 Hhi2) as [Hv2lo Hv2hi].
  assert (nearest (0 * (1 # 360)) == 0) as E2 by (vm_compute; reflexivity).
  assert (nearest ((360 - (1 # 17592186044416)) * (1 # 360)) == 1 - (1 # 9007199254740992))
    as E3 by (vm_compute; reflexivity).
  rewrite E2 in Hv2lo. rewrite E3 in Hv2hi.
  (* * 2^zoom, floor *)
  apply (scaled_floor_in_grid _ v2); [done|lra| |done]. rewrite Hp53. lra.
Qed.

(** The row stays inside the grid when the Mercator ordinate that the
    engine computed is between [ORDINATE_MIN] and [Math.PI]. *)
Lemma row_in_grid (ordinate : num) m zoom :
  value ordinate = Some m → ORDINATE_MIN <= m → m <= val Math_PI → (0 ≤ zoom ≤ 1023)%Z →
  ∃ y, index (Math_floor (mul (div (sub (int 1) (div ordinate Math_PI)) (int 2))
                              (Math_pow2 zoom))) = Some y ∧
       (0 ≤ y < 2 ^ zoom)%Z.
Proof.
  intros Hm Hm1 Hm2 Hzoom.
  assert (Hp53 : pow2 (-53) == 1 # 9007199254740992) by (vm_compute; reflexivity).
  assert (Hpi : value Math_PI = Some (val Math_PI)) by (vm_compute; reflexivity).
  assert (Hpipos : 0 < val Math_PI) by (vm_compute; reflexivity).
  (* ordinate / Math.PI *)
  assert (Hlo1 : ORDINATE_MIN / val Math_PI <= m / val Math_PI) by (by apply Qdiv_le_mono).
  assert (Hhi1 : m / val Math_PI <= val Math_PI / val Math_PI) by (by apply Qdiv_le_mono).
  assert (nearest (ORDINATE_MIN / val Math_PI) == -1 + (3 # 9007199254740992)) as E1
    by (vm_compute; reflexivity).
  assert (nearest (val Math_PI / val Math_PI) == 1) as E2 by (vm_compute; reflexivity).
  assert (Hb1 : -2 <= ORDINATE_MIN / val Math_PI) by (vm_compute; discriminate).
  assert (Hb2 : val Math_PI / val Math_PI <= 2) by (vm_compute; discriminate).
  destruct (div_value ordinate Math_PI m (val Math_PI) Hm Hpi) as (t & Ht & Hnt).
  { intros Hz. rewrite Hz in Hpipos. by apply Qlt_irrefl in Hpipos. }
  { apply pow2_1023_large.
    - eapply Qle_trans; [|exact Hlo1]. eapply Qle_trans; [|exact Hb1]. discriminate.
    - eapply Qle_trans; [exact Hhi1|]. eapply Qle_trans; [exact Hb2|]. discriminate. }
  destruct (between_nearest _ _ _ _ Hnt Hlo1 Hhi1) as [Htlo Hthi].
  rewrite E1 in Htlo. rewrite E2 in Hthi.
  (* 1 - ... *)
  destruct (sub_value (int 1) _ 1 t (value_int 1) Ht) as (u & Hu & Hnu).
  { apply pow2_1023_large; lra. }
  assert (Hlo2 : 0 <= 1 - t) by lra.
  assert (Hhi2 : 1 - t <= 2 - (3 # 9007199254740992)) by lra.
  destruct (between_nearest _ _ _ _ Hnu Hlo2 Hhi2) as [Hulo Huhi].
  assert (nearest 0 == 0) as E0 by (vm_compute; reflexivity).
  assert (nearest (2 - (3 # 9007199254740992)) == 2 - (1 # 2251799813685248)) as E3
    by (vm_compute; reflexivity).
  rewrite E0 in Hulo. rewrite E3 in Huhi.
  (* / 2 *)
  destruct (div_value _ (int 2) u 2 Hu (value_int 2)) as (h & Hh & Hnh).
  { discriminate. }
  { rewrite Qdiv_2. apply pow2_1023_large; lra. }
  rewrite Qdiv_2 in Hnh.
  assert (Hlo3 : 0 * (1 # 2) <= u * (1 # 2)) by lra.
  assert (Hhi3 : u * (1 # 2) <= (2 - (1 # 2251799813685248)) * (1 # 2)) by lra.
  destruct (between_nearest _ _ _ _ Hnh Hlo3 Hhi3) as [Hhlo Hhhi].
  assert (nearest (0 * (1 # 2)) == 0) as E4 by (vm_compute; reflexivity).
  assert (nearest ((2 - (1 # 2251799813685248)) * (1 # 2)) == 1 - (1 # 4503599627370496))
    as E5 by (vm_compute; reflexivity).
  rewrite E4 in Hhlo. rewrite E5 in Hhhi.
  apply (scaled_floor_in_grid _ h); [done|lra| |done]. rewrite Hp53. lra.
Qed.

(** C9, counterexample.  At longitude 180, and at the largest double
    below 180, for which [lon + 180] is rounded to 360, the column at
    zoom 0 is 1 = 2^0 for every latitude and every engine: the tile is
    outside the grid. *)
Lemma latLonToTile_leaves_grid :
  (¬ ∃ M lat, TileInvariant 0 (latLonToTile M lat (int 180) 0)) ∧
  (¬ ∃ M lat, TileInvariant 0 (latLonToTile M lat just_below_180 0)) ∧
  value just_below_180 = Some (val just_below_180) ∧
  LON_MAX < val just_below_180 ∧ val just_below_180 < 180.
Proof.
  assert (H : ∀ M lat lon, index (latLonToTile M lat lon 0).1 = Some 1%Z →
            ¬ TileInvariant 0 (latLonToTile M lat lon 0)).
  { intros M lat lon Hx (x & y & Hx' & _ & Hr & _). rewrite Hx in Hx'. simplify_eq. lia. }
  split; [|split; [|split; [|split]]].
  - intros (M & lat & Hinv). revert Hinv. apply H. cbn [latLonToTile fst]. vm_compute. reflexivity.
  - intros (M & lat & Hinv). revert Hinv. apply H. cbn [latLonToTile fst]. vm_compute. reflexivity.
  - vm_compute. reflexivity.
  - vm_compute. reflexivity.
  - vm_compute. reflexivity.
Qed.

(** C9, as the code has it.  For every longitude from -180 to
    179.99999999999994 (the largest double whose sum with 180 is below
    360 in doubles), every integer zoom from 0 to 1023 (where
    [Math.pow(2, zoom)] is finite) and every latitude whose Mercator
    ordinate [Math.log(Math.tan(latRad) + 1 / Math.cos(latRad))], as the
    engine computes it, is a number from -3.1415926535897922 (two units
    in the last place above [-Math.PI]) to [Math.PI], the tile that
    [latLonToTile] returns is a pair of integers with
    [0 ≤ x < 2^zoom] and [0 ≤ y < 2^zoom]. *)
Theorem latLonToTile_in_grid (M : Math) (lat lon : num) (zoom : Z) (q m : Q) :
  value lon = Some q → -180 <= q → q <= LON_MAX → (0 ≤ zoom ≤ 1023)%Z →
  value (mercatorOrdinate M lat) = Some m → ORDINATE_MIN <= m → m <= val Math_PI →
  TileInvariant zoom (latLonToTile M lat lon zoom).
Proof.
  intros Hlon Hq1 Hq2 Hzoom Hm Hm1 Hm2.
  destruct (column_in_grid lon q zoom Hlon Hq1 Hq2 Hzoom) as (x & Hx & Hxr).
  destruct (row_in_grid _ m zoom Hm Hm1 Hm2 Hzoom) as (y & Hy & Hyr).
  exists x, y. split; [exact Hx|]. split; [exact Hy|]. split; assumption.
Qed.

Lemma latLonToTile_in_grid_witness :
  (value (int (-81)) = Some (inject_Z (-81)) ∧ -180 <= inject_Z (-81) ∧
   inject_Z (-81) <= LON_MAX ∧ (0 ≤ 12 ≤ 1023)%Z ∧
   value (mercatorOrdinate standard_values_only (int 0)) = Some 0 ∧
   ORDINATE_MIN <= 0 ∧ 0 <= val Math_PI) ∧
  TileInvariant 12 (latLonToTile standard_values_only (int 0) (int (-81)) 12).
Proof.
  assert (H1 : value (int (-81)) = Some (inject_Z (-81))) by reflexivity.
  assert (H2 : -180 <= inject_Z (-81)) by (vm_compute; discriminate).
  assert (H3 : inject_Z (-81) <= LON_MAX) by (vm_compute; discriminate).
  assert (H4 : (0 ≤ 12 ≤ 1023)%Z) by lia.
  assert (H5 : value (mercatorOrdinate standard_values_only (int 0)) = Some 0)
    by (vm_compute; reflexivity).
  assert (H6 : ORDINATE_MIN <= 0) by (vm_compute; discriminate).
  assert (H7 : 0 <= val Math_PI) by (vm_compute; discriminate).
  split; [exact (conj H1 (conj H2 (conj H3 (conj H4 (conj H5 (conj H6 H7))))))|].
  exact (latLonToTile_in_grid standard_values_only (int 0) (int (-81)) 12
           (inject_Z (-81)) 0 H1 H2 H3 H4 H5 H6 H7).
Defined.

End DoubleTileFacts.

(** ** The condition of the fetch listener *)

Module RegexFacts.
Import RegExp Text SW.

Lemma match_here_literal (cs : list ascii) (s : string) :
  match_here (map Lit cs) s = true ↔
  ∃ post, s = string_of_list_ascii cs +:+ post.
Proof.
  revert s. induction cs as [|c cs IH]; intros s; simpl.
  - split; [by exists s | done].
  - destruct s as [|d s]; simpl.
    + split; [done | by intros [post Hpost]].
    + rewrite andb_true_iff, bool_decide_eq_true, IH. split.
      * intros [-> [post ->]]. by exists post.
      * intros [post [= -> ->]]. split; [done | by exists post].
Qed.

Lemma test_literal (cs : list ascii) (s : string) :
  test (map Lit cs) s = true ↔ contains (string_of_list_ascii cs) s.
Proof.
  unfold contains. induction s as [|d s IH].
  - cbn [test]. rewrite orb_false_r, match_here_literal. split.
    + intros [post ->]. by exists "", post.
    + intros ([|e pre] & post & Heq); [by exists post | done].
  - cbn [test]. rewrite orb_true_iff, match_here_literal, IH. split.
    + intros [[post ->] | (pre & post & ->)].
      * by exists "", post.
      * by exists (String d pre), post.
    + intros ([|e pre] & post & Heq).
      * left. by exists post.
      * right. injection Heq as -> ->. by exists pre, post.
Qed.

(** A body without an unescaped slash is never closed, whatever follows
    on the line: the scan ends with the text. *)
Lemma literal_unterminated : literal FETCH_CONDITION_SOURCE = None.
Proof. reflexivity. Qed.

(** The slip.  With one more slash before [.test] the same line holds a
    literal, and that literal is a substring test for the tile-server
    host pattern: every dot of it is escaped. *)
Lemma literal_with_closing_slash :
  ∃ body,
    literal "/\.tile\.openstreetmap\.org\//.test(url)) {" = Some (body, ".test(url)) {") ∧
    ∀ u, test (parse body) u = true ↔ contains TILE_HOST_PATTERN u.
Proof.
  exists "\.tile\.openstreetmap\.org\/". split; [reflexivity|]. intros u.
  change (parse "\.tile\.openstreetmap\.org\/")
    with (map Lit (list_ascii_of_string TILE_HOST_PATTERN)).
  by rewrite test_literal, string_of_list_ascii_of_string.
Qed.

End RegexFacts.

(** ** The fetch listener *)

Module FetchFacts.
Import Binary Text SW Vocabulary RegexFacts.

Lemma store_lookup_app_fresh name st :
  store_lookup name st = None →
  ∀ n, store_lookup n (st ++ [(name, ∅)]) =
       if decide (name = n) then Some ∅ else store_lookup n st.
Proof.
  intros Hnone n. induction st as [|[m c] st IH]; simpl in *.
  - done.
  - destruct (decide (m = name)) as [->|Hm]; [done|].
    destruct (decide (m = n)) as [->|Hn].
    + by rewrite decide_False by done.
    + by apply IH.
Qed.

Lemma cached_in_open name st n key :
  store_lookup name st = None →
  cached_in (st ++ [(name, ∅)]) n key = cached_in st n key.
Proof.
  intros Hnone. unfold cached_in. rewrite store_lookup_app_fresh by done.
  destruct (decide (name = n)) as [<-|]; [|done].
  by rewrite Hnone, lookup_empty.
Qed.

(** Opening the current generation leaves every lookup as it was. *)
Lemma caches_open_spec net w :
  ∃ w1, caches_open CACHE_NAME net w = (Fulfilled CACHE_NAME, w1) ∧
        requested w1 = requested w ∧
        (∀ r, current_hit w1 r = current_hit w r) ∧
        (∀ n key, cached_in (storage w1) n key = cached_in (storage w) n key) ∧
        (is_Some (store_lookup CACHE_NAME (storage w)) → w1 = w).
Proof.
  unfold caches_open. destruct (store_lookup CACHE_NAME (storage w)) eqn:Hl.
  - exists w. repeat split; done.
  - eexists. split; [done|]. repeat split; simpl.
    + intros r. unfold current_hit. simpl. rewrite store_lookup_app_fresh by done.
      rewrite decide_True by done. rewrite Hl. unfold cache_match_in.
      case_decide; [apply lookup_empty | done].
    + intros n key. by apply cached_in_open.
    + by intros [? ?].
Qed.

Lemma store_update_lookup name f st n :
  store_lookup n (store_update name f st) =
  if decide (n = name) then f <$> store_lookup n st else store_lookup n st.
Proof.
  unfold store_update. induction st as [|[m c] st IH]; simpl.
  - by case_decide.
  - destruct (decide (m = name)) as [->|Hm]; simpl.
    + destruct (decide (name = n)) as [<-|Hn].
      * by rewrite decide_True by done.
      * rewrite IH. done.
    + destruct (decide (m = n)) as [<-|Hn].
      * by rewrite decide_False by done.
      * by rewrite IH.
Qed.

(** *** The body of the listener, for a regular expression [re] *)

(** A request that [re] matches and that the current generation holds is
    answered from it; the world is left as it was. *)
Lemma handler_hit re request net w stored :
  RegExp.test re (url request) = true →
  current_hit w request = Some stored →
  fetchHandler re request net w = (Fulfilled stored, w).
Proof.
  intros Htile Hhit. unfold fetchHandler. rewrite Htile.
  unfold tileBranch. run_monad.
  destruct (caches_open_spec net w) as (w1 & -> & _ & _ & _ & Hsame).
  rewrite Hsame.
  - unfold cache_match. unfold current_hit in Hhit.
    destruct (store_lookup CACHE_NAME (storage w)); [|done]. by rewrite Hhit.
  - unfold current_hit in Hhit.
    by destruct (store_lookup CACHE_NAME (storage w)).
Qed.

Lemma handler_miss re request net w :
  RegExp.test re (url request) = true →
  current_hit w request = None →
  ∃ w1, requested w1 = requested w ∧
        (∀ r, current_hit w1 r = current_hit w r) ∧
        (∀ n key, cached_in (storage w1) n key = cached_in (storage w) n key) ∧
        fetchHandler re request net w =
        match net request with
        | Responds response =>
            (Fulfilled response,
             if decide (status response = 200%Z)
             then (cache_put CACHE_NAME request response net (log_request request w1)).2
             else log_request request w1)
        | NetworkFailure => fallbackResponse net (log_request request w1)
        end.
Proof.
  intros Htile Hmiss. unfold fetchHandler. rewrite Htile.
  unfold tileBranch. run_monad.
  destruct (caches_open_spec net w) as (w1 & -> & Hlog & Hcur & Hcached & _).
  exists w1. repeat split; try done.
  unfold cache_match. specialize (Hcur request). unfold current_hit in Hcur.
  rewrite Hcur. fold (current_hit w request). rewrite Hmiss.
  unfold fetch. destruct (net request) as [response|]; [|done].
  by case_decide.
Qed.

Lemma cache_put_requested cache r resp net w :
  requested (cache_put cache r resp net w).2 = requested w.
Proof. unfold cache_put. by repeat case_decide. Qed.

Lemma fallbackResponse_world net w : (fallbackResponse net w).2 = w.
Proof. unfold fallbackResponse. by destruct (atob FALLBACK_BASE64). Qed.

Lemma handler_miss_consults_network re request net w :
  RegExp.test re (url request) = true →
  current_hit w request = None →
  requested (fetchHandler re request net w).2 = requested w ++ [request].
Proof.
  intros Htile Hmiss.
  destruct (handler_miss re request net w Htile Hmiss) as (w1 & Hlog & _ & _ & ->).
  destruct (net request) as [response|].
  - simpl. case_decide.
    + rewrite cache_put_requested. simpl. by rewrite Hlog.
    + simpl. by rewrite Hlog.
  - rewrite fallbackResponse_world. simpl. by rewrite Hlog.
Qed.

(** A request that [re] does not match: the first match over the caches,
    else the network, with nothing written. *)
Lemma handler_other re request net w :
  RegExp.test re (url request) = false →
  fetchHandler re request net w =
  match first_match (storage w) request with
  | Some cached => (Fulfilled cached, w)
  | None => fetch request net w
  end.
Proof.
  intros Hother. unfold fetchHandler. rewrite Hother.
  unfold otherBranch, caches_match. run_monad.
  by destruct (first_match (storage w) request).
Qed.

(** The bytes of the fallback: the PNG that the base64 text stands for
    has 102 bytes; the text that [atob] returns, encoded as [Blob] does
    with a string part, has 119. *)
Lemma fallback_bytes :
  ∃ s png,
    atob FALLBACK_BASE64 = Some s ∧
    base64_bytes FALLBACK_BASE64 = Some png ∧
    length png = 102%nat ∧
    length (utf8_encode s) = 119%nat ∧
    take 8 png = [x89; x50; x4e; x47; x0d; x0a; x1a; x0a]%byte ∧
    take 8 (utf8_encode s) = [xc2; x89; x50; x4e; x47; x0d; x0a; x1a]%byte.
Proof.
  unfold base64_bytes.
  destruct (atob FALLBACK_BASE64) as [s|] eqn:Hs; [|by vm_compute in Hs].
  exists s, (map byte_of_ascii (list_ascii_of_string s)).
  split; [done|]. split; [done|].
  vm_compute in Hs. injection Hs as <-. by vm_compute.
Qed.

(** *** The listener as the source has it *)

Lemma no_listener : fetchListener = None.
Proof. reflexivity. Qed.

Lemma respond_is_fetch request net w : respond request net w = fetch request net w.
Proof. reflexivity. Qed.

(** C3.  The condition of line 255 is not a regular expression literal:
    the only slash after the opening one is escaped, so the literal runs
    to the end of the line unterminated.  The source text denotes no
    fetch listener: no request is tested against a pattern or sent to a
    branch, and every request, for a tile or not, goes to the network as
    the page sent it. *)
Theorem fetch_condition_is_unterminated :
  RegExp.literal FETCH_CONDITION_SOURCE = None ∧
  fetchListener = None ∧
  (∀ request net w, respond request net w = fetch request net w).
Proof. split; [|split]; reflexivity. Qed.

(** C7.  The current generation holds the tile of the request, and the
    request is sent to the network all the same: with the network down
    it fails, and with a network that answers 404 the page gets the 404.
    The stored response is not served. *)
Theorem stored_tile_is_requested_from_network :
  current_hit tile_installed tile_request = Some stored_tile ∧
  respond tile_request offline tile_installed
    = (Rejected TypeError, log_request tile_request tile_installed) ∧
  respond tile_request not_found tile_installed
    = (Fulfilled not_found_response, log_request tile_request tile_installed).
Proof. split; [|split]; reflexivity. Qed.

(** C6.  A tile request that the current generation does not hold, with
    the network down, is rejected: no response is substituted.  And the
    response that the [catch] block builds, were it reached, has content
    type [image/png] and a body of 119 bytes, the UTF-8 encoding of the
    text that [atob] returns, not the 102 bytes of the PNG that the
    base64 text stands for. *)
Theorem offline_tile_request_is_rejected :
  current_hit installed_empty tile_request = None ∧
  respond tile_request offline installed_empty
    = (Rejected TypeError, log_request tile_request installed_empty) ∧
  ∃ s png resp,
    atob FALLBACK_BASE64 = Some s ∧
    base64_bytes FALLBACK_BASE64 = Some png ∧
    fallbackResponse offline installed_empty = (Fulfilled resp, installed_empty) ∧
    content_type resp = Some "image/png" ∧
    body resp = utf8_encode s ∧
    length png = 102%nat ∧
    length (body resp) = 119%nat ∧
    body resp ≠ png.
Proof.
  split; [reflexivity|]. split; [reflexivity|].
  destruct fallback_bytes as (s & png & Hs & Hpng & Hlen & Hlen' & _ & _).
  exists s, png, (new_Response (new_Blob [s] "image/png")).
  assert (Hbody : body (new_Response (new_Blob [s] "image/png")) = utf8_encode s).
  { simpl. apply app_nil_r. }
  split; [done|]. split; [done|]. split.
  { unfold fallbackResponse. by rewrite Hs. }
  split; [done|]. split; [done|]. split; [done|]. rewrite Hbody. split; [done|].
  intros Heq. rewrite Heq in Hlen'. congruence.
Qed.

(** C8.  The current generation holds the page of the request, and the
    request is sent to the network all the same: with the network down
    it fails, and with a network that answers 404 the page gets the 404.
    The cached response is not returned. *)
Theorem cached_page_is_requested_from_network :
  first_match (storage page_installed) (GET "/index.html") = Some new_page ∧
  respond (GET "/index.html") offline page_installed
    = (Rejected TypeError, log_request (GET "/index.html") page_installed) ∧
  respond (GET "/index.html") not_found page_installed
    = (Fulfilled not_found_response, log_request (GET "/index.html") page_installed).
Proof. split; [|split]; reflexivity. Qed.

(** C10.  A request for a tile that the current generation does not
    hold and that the network answers with a status other than 200 gets
    that very response: no fallback image is substituted, no cache entry
    is written, the request still misses afterwards, and the next
    request for the tile is sent to the network again.  This holds of
    the source as it is, where nothing intercepts the request, and of
    the body of the listener for every regular expression that matches
    the URL of the request. *)
Theorem tile_http_error_passed_through (request : Request) (net : Network)
    (w : World) (response : Response) :
  contains TILE_HOST_PATTERN (url request) →
  current_hit w request = None →
  net request = Responds response →
  status response ≠ 200%Z →
  (∃ w',
     respond request net w = (Fulfilled response, w') ∧
     requested w' = requested w ++ [request] ∧
     (∀ name key, cached_in (storage w') name key = cached_in (storage w) name key) ∧
     current_hit w' request = None ∧
     (∀ net', requested (respond request net' w').2 = requested w' ++ [request])) ∧
  (∀ re, RegExp.test re (url request) = true →
     ∃ w',
       fetchHandler re request net w = (Fulfilled response, w') ∧
       requested w' = requested w ++ [request] ∧
       (∀ name key, cached_in (storage w') name key = cached_in (storage w) name key) ∧
       current_hit w' request = None ∧
       (∀ net', requested (fetchHandler re request net' w').2 = requested w' ++ [request])).
Proof.
  intros _ Hmiss Hnet Hstatus. split.
  - exists (log_request request w). rewrite respond_is_fetch. unfold fetch. rewrite Hnet.
    repeat split; try done.
    intros net'. rewrite respond_is_fetch. unfold fetch. by destruct (net' request).
  - intros re Htile.
    destruct (handler_miss re request net w Htile Hmiss) as (w1 & Hlog & Hcur & Hcached & Hrun).
    rewrite Hnet, decide_False in Hrun by done.
    exists (log_request request w1).
    assert (Hmiss' : current_hit (log_request request w1) request = None).
    { rewrite <- Hmiss, <- Hcur. done. }
    repeat split; try done.
    + simpl. by rewrite Hlog.
    + intros net'. by apply handler_miss_consults_network.
Qed.

Lemma tile_http_error_passed_through_witness :
  (contains TILE_HOST_PATTERN (url tile_request) ∧
   current_hit installed_empty tile_request = None ∧
   not_found tile_request = Responds not_found_response ∧
   status not_found_response ≠ 200%Z) ∧
  ∃ w',
    respond tile_request not_found installed_empty = (Fulfilled not_found_response, w') ∧
    requested w' = [tile_request] ∧
    current_hit w' tile_request = None.
Proof.
  assert (H1 : contains TILE_HOST_PATTERN (url tile_request)).
  { exists "https://a", "12/1103/1690.png". reflexivity. }
  assert (H2 : current_hit installed_empty tile_request = None) by reflexivity.
  assert (H3 : not_found tile_request = Responds not_found_response) by reflexivity.
  assert (H4 : status not_found_response ≠ 200%Z) by discriminate.
  split; [exact (conj H1 (conj H2 (conj H3 H4)))|].
  destruct (tile_http_error_passed_through tile_request not_found installed_empty
              not_found_response H1 H2 H3 H4)
    as ((w' & Hrun & Hlog & _ & Hmiss & _) & _).
  exists w'. split; [exact Hrun|]. split; [exact Hlog | exact Hmiss].
Defined.

End FetchFacts.

(** ** The activate handler *)

Module ActivateFacts.
Import SW FetchFacts.

Lemma set_storage_same w : set_storage (storage w) w = w.
Proof. by destruct w. Qed.

Lemma filter_on_elements {A} (P Q : A → Prop) `{!∀ x, Decision (P x)}
    `{!∀ x, Decision (Q x)} (l : list A) :
  (∀ x, x ∈ l → (P x ↔ Q x)) → filter P l = filter Q l.
Proof.
  induction l as [|a l IH]; intros Hext; [done|].
  rewrite !filter_cons.
  rewrite IH by (intros x Hx; apply Hext; by right).
  pose proof (Hext a ltac:(by left)) as Ha.
  destruct (decide (P a)), (decide (Q a)); tauto || done.
Qed.

Lemma store_lookup_None name st :
  store_lookup name st = None ↔ name ∉ map fst st.
Proof.
  induction st as [|[m c] st IH]; simpl.
  - split; [intros _; apply not_elem_of_nil | done].
  - rewrite not_elem_of_cons. case_decide as Hm.
    + split; [done | intros [Hne _]; by subst].
    + rewrite IH. split; [intros ?; split; [congruence | done] | tauto].
Qed.

Lemma filter_absent name (st : list (string * gmap string Response)) :
  store_lookup name st = None → filter (λ p, p.1 ≠ name) st = st.
Proof.
  rewrite store_lookup_None. intros Hnot.
  induction st as [|[m c] st IH]; [done|].
  simpl in Hnot. apply not_elem_of_cons in Hnot as [Hne Hnot].
  rewrite filter_cons. simpl. rewrite decide_True by congruence.
  by rewrite IH.
Qed.

Lemma caches_delete_spec name net w :
  ∃ b, caches_delete name net w =
       (Fulfilled b, set_storage (filter (λ p, p.1 ≠ name) (storage w)) w).
Proof.
  unfold caches_delete. destruct (store_lookup name (storage w)) eqn:Hl.
  - by exists true.
  - exists false. rewrite filter_absent by done. by rewrite set_storage_same.
Qed.

Lemma purge_cons key keys st :
  purge (key :: keys) st =
  purge keys (if decide (key ≠ CACHE_NAME) then filter (λ p, p.1 ≠ key) st else st).
Proof.
  unfold purge. case_decide as Hk.
  - rewrite list_filter_filter. apply list_filter_iff. intros [m c]. simpl.
    rewrite not_elem_of_cons. split.
    + intros [-> | [? ?]]; split; auto.
    + intros [[-> | ?] ?]; auto.
  - subst key. apply list_filter_iff. intros [m c]. simpl.
    rewrite not_elem_of_cons. destruct (decide (m = CACHE_NAME)); tauto.
Qed.

Lemma delete_stale_spec keys net w :
  ∃ results,
    Promise_all (map (λ key,
      if decide (key ≠ CACHE_NAME)
      then deleted ← caches_delete key; resolve (Some deleted)
      else resolve None) keys) net w
    = (Fulfilled results, set_storage (purge keys (storage w)) w).
Proof.
  revert w. induction keys as [|key keys IH]; intros w.
  - exists []. simpl. unfold resolve, purge.
    rewrite (filter_on_elements _ (λ _, True)).
    + assert (Hall : ∀ l : list (string * gmap string Response), filter (λ _, True) l = l).
      { induction l as [|a l IHl]; [done|]. rewrite filter_cons. simpl. by rewrite IHl. }
      by rewrite Hall, set_storage_same.
    + intros x _. split; [done|]. intros _. right. apply not_elem_of_nil.
  - rewrite purge_cons.
    match goal with |- context [map ?g _] => set (f := g) in * end.
    cbn [map Promise_all].
    destruct (decide (key ≠ CACHE_NAME)) as [Hk | Hk].
    + assert (Hf : ∃ b, f key net w =
        (Fulfilled (Some b), set_storage (filter (λ p, p.1 ≠ key) (storage w)) w)).
      { unfold f. rewrite decide_True by done. run_monad.
        destruct (caches_delete_spec key net w) as [b ->]. by exists b. }
      destruct Hf as [b ->].
      destruct (IH (set_storage (filter (λ p, p.1 ≠ key) (storage w)) w)) as [rs ->].
      by eexists.
    + assert (Hf : f key net w = (Fulfilled None, w)).
      { unfold f. by rewrite decide_False by done. }
      rewrite Hf. destruct (IH w) as [rs ->]. by eexists.
Qed.

Lemma purge_all_keys st : purge (map fst st) st = keep_current st.
Proof.
  unfold purge, keep_current. apply filter_on_elements.
  intros p Hp. split; [|by left].
  intros [? | Hnot]; [done|]. destruct Hnot. by apply list_elem_of_fmap_2.
Qed.

Lemma keep_current_lookup st name :
  store_lookup name (keep_current st) =
  if decide (name = CACHE_NAME) then store_lookup name st else None.
Proof.
  unfold keep_current. induction st as [|[m c] st IH].
  - cbn [store_lookup]. rewrite filter_nil. cbn [store_lookup]. by case_decide.
  - rewrite filter_cons. cbn [fst store_lookup].
    destruct (decide (m = CACHE_NAME)) as [Hm | Hm]; cbn [store_lookup].
    + destruct (decide (m = name)) as [Hn | Hn].
      * rewrite decide_True by congruence. reflexivity.
      * apply IH.
    + rewrite IH. destruct (decide (m = name)) as [Hn | Hn]; [|done].
      subst name. rewrite !decide_False by done. done.
Qed.

Lemma keep_current_names st :
  NoDup (map fst st) → CACHE_NAME ∈ map fst st →
  map fst (keep_current st) = [CACHE_NAME].
Proof.
  unfold keep_current. induction st as [|[m c] st IH]; simpl.
  - intros _ Hin. by apply elem_of_nil in Hin.
  - intros [Hnotin Hnd]%NoDup_cons Hin. rewrite filter_cons. simpl.
    destruct (decide (m = CACHE_NAME)) as [->|Hm]; simpl.
    + f_equal. rewrite (filter_on_elements _ (λ _, False)).
      * clear. induction st as [|a l IHl]; [done|]. by rewrite filter_cons.
      * intros [n d] Hp. simpl. split; [|done]. intros ->.
        apply Hnotin. by apply (list_elem_of_fmap_2 fst) in Hp.
    + apply IH; [done|]. apply elem_of_cons in Hin as [?|?]; [congruence | done].
Qed.

(** C5.  The activate handler deletes every cache whose name is not
    [CACHE_NAME] and leaves the current generation as it was: afterwards
    no other name is left, and when the current generation existed (and
    names identify caches) it is the only one.  From the generations
    v1, v10 and v11, only v11 survives. *)
Theorem activate_keeps_only_current (net : Network) (w : World) :
  onActivate net w = (Fulfilled tt, set_storage (keep_current (storage w)) w) ∧
  (∀ name, name ≠ CACHE_NAME → store_lookup name (keep_current (storage w)) = None) ∧
  store_lookup CACHE_NAME (keep_current (storage w)) = store_lookup CACHE_NAME (storage w) ∧
  (∀ name, name ∈ map fst (keep_current (storage w)) → name = CACHE_NAME) ∧
  (NoDup (map fst (storage w)) → CACHE_NAME ∈ map fst (storage w) →
   map fst (keep_current (storage w)) = [CACHE_NAME]).
Proof.
  split; [|split; [|split; [|split]]].
  - unfold onActivate, caches_keys. run_monad.
    destruct (delete_stale_spec (map fst (storage w)) net w) as [rs Hrs].
    unfold mbind, M_bind, await, resolve in Hrs. rewrite Hrs.
    by rewrite purge_all_keys.
  - intros name Hne. rewrite keep_current_lookup. by rewrite decide_False.
  - rewrite keep_current_lookup. by rewrite decide_True.
  - intros name (p & -> & Hp)%list_elem_of_fmap.
    unfold keep_current in Hp. by apply list_elem_of_filter in Hp as [? _].
  - apply keep_current_names.
Qed.

Lemma activate_keeps_only_current_witness :
  map fst (keep_current (storage three_generations)) = [CACHE_NAME] ∧
  map fst (storage (onActivate offline three_generations).2) = [CACHE_NAME].
Proof.
  pose proof (activate_keeps_only_current offline three_generations)
    as (Hrun & _ & _ & _ & Honly).
  assert (Hnames : map fst (keep_current (storage three_generations)) = [CACHE_NAME]).
  { apply Honly.
    - apply (bool_decide_unpack (NoDup _)). vm_compute. exact I.
    - apply (bool_decide_unpack (_ ∈ _)). vm_compute. exact I. }
  split; [exact Hnames|]. rewrite Hrun. exact Hnames.
Defined.

End ActivateFacts.

(** ** The install handler *)

Module InstallFacts.
Import Tiles SW FetchFacts ActivateFacts.

Lemma batch_responses_keys net urls entries :
  batch_responses net urls = Some entries → map fst entries = urls.
Proof.
  revert entries. induction urls as [|u urls IH]; intros entries; simpl.
  - by intros [= <-].
  - destruct (net (GET u)) as [resp|]; [|done].
    destruct (batch_responses net urls) as [rest|]; [|done].
    destruct (addable resp); [|done]. intros [= <-]. simpl. by rewrite IH.
Qed.

Lemma batch_responses_is_Some net urls :
  is_Some (batch_responses net urls) ↔ ∀ u, u ∈ urls → cacheableb net u = true.
Proof.
  unfold cacheableb. induction urls as [|u urls IH]; simpl.
  - split; [intros _ u Hu; by apply elem_of_nil in Hu | by eexists].
  - split.
    + intros Hsome v Hv.
      destruct (net (GET u)) as [resp|] eqn:Hnet; [|by destruct Hsome].
      destruct (batch_responses net urls) as [rest|]; [|by destruct Hsome].
      destruct (addable resp) eqn:Hadd; [|by destruct Hsome].
      apply elem_of_cons in Hv as [-> | Hv].
      * by rewrite Hnet.
      * apply IH; [by eexists | done].
    + intros Hall. pose proof (Hall u ltac:(by left)) as Hu.
      destruct (net (GET u)) as [resp|]; [|done]. rewrite Hu.
      destruct (proj2 IH) as [rest ->]; [|by eexists].
      intros v Hv. apply Hall. by right.
Qed.

Lemma dom_put_entries entries (c : gmap string Response) :
  dom (put_entries entries c) = dom c ∪ list_to_set (map fst entries).
Proof.
  unfold put_entries. revert c. induction entries as [|[k v] es IH]; intros c; simpl.
  - set_solver.
  - rewrite IH, dom_insert_L. set_solver.
Qed.

Lemma elem_of_dom_add_tiles net tiles (c : gmap string Response) k :
  k ∈ dom (fold_left (add_tile net) tiles c) ↔
  k ∈ dom c ∨ (k ∈ tiles ∧ cacheableb net k = true).
Proof.
  revert c. induction tiles as [|u tiles IH]; intros c; simpl.
  - split; [auto | intros [? | [Hk _]]; [done | by apply elem_of_nil in Hk]].
  - rewrite IH, elem_of_cons. unfold add_tile, cacheableb.
    destruct (net (GET u)) as [resp|] eqn:Hnet.
    + destruct (addable resp) eqn:Hadd.
      * rewrite dom_insert_L, elem_of_union, elem_of_singleton. split.
        -- intros [[-> | ?] | [? ?]]; auto. right. rewrite Hnet. auto.
        -- intros [? | [[-> | ?] ?]]; auto.
      * split; [intros [? | [? ?]]; auto|].
        intros [? | [[-> | ?] Hc]]; auto. rewrite Hnet in Hc. congruence.
    + split; [intros [? | [? ?]]; auto|].
      intros [? | [[-> | ?] Hc]]; auto. rewrite Hnet in Hc. congruence.
Qed.

Lemma store_update_id name (st : list (string * gmap string Response)) :
  store_update name (λ c, c) st = st.
Proof.
  unfold store_update. induction st as [|[m c] st IH]; [done|].
  simpl. rewrite IH. by case_decide.
Qed.

Lemma store_update_compose name f g (st : list (string * gmap string Response)) :
  store_update name f (store_update name g st) = store_update name (λ c, f (g c)) st.
Proof.
  unfold store_update. induction st as [|[m c] st IH]; [done|].
  cbn [map]. rewrite IH. f_equal. cbn [fst snd].
  destruct (decide (m = name)) as [Hm | Hm]; cbn [fst snd].
  - by rewrite decide_True.
  - by rewrite decide_False.
Qed.

Lemma cache_add_swallowed net w u :
  try_catch (cache_add CACHE_NAME u) (λ _, resolve tt) net w =
  (Fulfilled tt,
   {| storage := store_update CACHE_NAME (λ c, add_tile net c u) (storage w);
      requested := requested w ++ [GET u] |}).
Proof.
  unfold try_catch, cache_add, fetch, add_tile. run_monad.
  destruct (net (GET u)) as [resp|] eqn:Hnet.
  - destruct (addable resp) eqn:Hadd.
    + unfold cache_put. cbn [method GET]. rewrite decide_True by done.
      unfold addable in Hadd. apply andb_true_iff in Hadd as [_ Hnot].
      apply negb_true_iff, bool_decide_eq_false in Hnot.
      rewrite decide_False by done. done.
    + unfold log_request. by rewrite store_update_id.
  - unfold log_request. by rewrite store_update_id.
Qed.

Lemma tiles_precache_spec tiles net w :
  ∃ results,
    Promise_all (map (λ u, try_catch (cache_add CACHE_NAME u) (λ _, resolve tt)) tiles) net w
    = (Fulfilled results,
       {| storage := store_update CACHE_NAME (λ c, fold_left (add_tile net) tiles c) (storage w);
          requested := requested w ++ map GET tiles |}).
Proof.
  revert w. induction tiles as [|u tiles IH]; intros w.
  - exists []. simpl. unfold resolve. rewrite store_update_id, app_nil_r. by destruct w.
  - cbn [map Promise_all]. rewrite cache_add_swallowed.
    destruct (IH {| storage := store_update CACHE_NAME (λ c, add_tile net c u) (storage w);
                    requested := requested w ++ [GET u] |}) as [rs ->].
    eexists. cbn [storage requested fold_left].
    by rewrite store_update_compose, <- app_assoc.
Qed.

Lemma caches_open_lookup net w :
  ∃ w1, caches_open CACHE_NAME net w = (Fulfilled CACHE_NAME, w1) ∧
        requested w1 = requested w ∧
        store_lookup CACHE_NAME (storage w1) = Some (opened_cache w).
Proof.
  unfold caches_open, opened_cache.
  destruct (store_lookup CACHE_NAME (storage w)) eqn:Hl.
  - exists w. by rewrite Hl.
  - eexists. split; [done|]. split; [done|]. simpl.
    rewrite store_lookup_app_fresh by done. by rewrite decide_True.
Qed.

(** The outcome of an install run from any world. *)
Lemma install_run precacheUrls bounds net w :
  let run := install precacheUrls bounds net w in
  match batch_responses net precacheUrls with
  | Some entries =>
      if bool_decide (NoDup precacheUrls) then
        run.1 = Fulfilled tt ∧
        store_lookup CACHE_NAME (storage run.2) =
          Some (fold_left (add_tile net) (generateTileUrls bounds)
                  (put_entries entries (opened_cache w))) ∧
        requested run.2 =
          requested w ++ map GET precacheUrls ++ map GET (generateTileUrls bounds)
      else
        run.1 = Rejected InvalidStateError ∧
        store_lookup CACHE_NAME (storage run.2) = Some (opened_cache w)
  | None =>
      run.1 = Rejected TypeError ∧
      store_lookup CACHE_NAME (storage run.2) = Some (opened_cache w)
  end.
Proof.
  unfold install, mbind, M_bind, await.
  destruct (caches_open_lookup net w) as (w1 & -> & Hlog & Hopen).
  unfold cache_addAll.
  destruct (batch_responses net precacheUrls) as [entries|]; [|by simpl].
  case_bool_decide; [|by simpl].
  match goal with |- context [Promise_all ?ps net ?w2] =>
    destruct (tiles_precache_spec (generateTileUrls bounds) net w2) as [rs Hrs]
  end.
  cbv zeta. rewrite Hrs. unfold resolve. cbn [fst snd storage requested set_storage].
  split; [done|]. split.
  - rewrite store_update_compose, store_update_lookup, decide_True by done.
    by rewrite Hopen.
  - by rewrite Hlog, <- app_assoc.
Qed.

Lemma size_list_to_set_le (l : list string) :
  size (list_to_set l : gset string) ≤ length l.
Proof.
  induction l as [|a l IH].
  - done.
  - rewrite list_to_set_cons. cbn [length].
    rewrite size_union_alt, size_singleton.
    pose proof (subseteq_size (list_to_set l ∖ {[a]}) (list_to_set l : gset string)
                  ltac:(set_solver)).
    lia.
Qed.

(** C4, counterexample.  The current generation holds a tile of zoom 13,
    as a tile request of the map page leaves one.  An install run with
    every fetch answered completes and the generation still holds that
    tile, which is neither a site asset nor a generated tile URL; and
    with a manifest of no site asset and no tile the completed run
    leaves one entry, more than [N + M = 0]. *)
Lemma install_keeps_other_entries :
  (∃ c,
     (install PRECACHE_URLS OFFLINE_TILE_BOUNDS all_ok zoom13_tile_stored).1 = Fulfilled tt ∧
     store_lookup CACHE_NAME
       (storage (install PRECACHE_URLS OFFLINE_TILE_BOUNDS all_ok zoom13_tile_stored).2)
       = Some c ∧
     is_Some (c !! zoom13_tile) ∧
     (zoom13_tile ∉ PRECACHE_URLS) ∧
     (zoom13_tile ∉ generateTileUrls OFFLINE_TILE_BOUNDS)) ∧
  (∃ c,
     (install [] no_zoom_levels all_ok zoom13_tile_stored).1 = Fulfilled tt ∧
     store_lookup CACHE_NAME (storage (install [] no_zoom_levels all_ok zoom13_tile_stored).2)
       = Some c ∧
     size c = 1%nat ∧
     (length ([] : list string) + length (generateTileUrls no_zoom_levels) = 0)%nat).
Proof.
  assert (Hcache : opened_cache zoom13_tile_stored = {[ zoom13_tile := stored_tile ]}).
  { unfold opened_cache, zoom13_tile_stored. cbn [storage store_lookup].
    by rewrite decide_True. }
  split.
  - pose proof (install_run PRECACHE_URLS OFFLINE_TILE_BOUNDS all_ok zoom13_tile_stored) as Hrun.
    cbv zeta in Hrun.
    destruct (proj2 (batch_responses_is_Some all_ok PRECACHE_URLS)) as [entries Hentries].
    { intros u _. reflexivity. }
    rewrite Hentries in Hrun.
    rewrite bool_decide_eq_true_2 in Hrun
      by (apply (bool_decide_unpack (NoDup _)); vm_compute; exact I).
    destruct Hrun as (Hout & Hstore & _).
    eexists. split; [exact Hout|]. split; [exact Hstore|]. split; [|split].
    + apply elem_of_dom, elem_of_dom_add_tiles. left.
      rewrite dom_put_entries, Hcache, dom_singleton_L.
      apply elem_of_union. left. by apply elem_of_singleton.
    + unfold PRECACHE_URLS, zoom13_tile. rewrite !elem_of_cons, elem_of_nil.
      intros H. repeat (destruct H as [H | H]; [discriminate H|]). done.
    + intros Hin. apply TileFacts.elem_of_generateTileUrls in Hin
        as (zoom & x & y & sub & Hzoom & _ & Hsub & Heq).
      change zoom13_tile with (tileUrl "a" 13 2206 3380) in Heq.
      apply TileFacts.tileUrl_inj in Heq as (_ & <- & _); [| |done].
      2:{ unfold subdomains. apply elem_of_cons. by left. }
      cbn [zoomLevels OFFLINE_TILE_BOUNDS] in Hzoom.
      apply list_elem_of_singleton in Hzoom. discriminate Hzoom.
  - pose proof (install_run [] no_zoom_levels all_ok zoom13_tile_stored) as Hrun.
    cbv zeta in Hrun. cbn [batch_responses] in Hrun.
    rewrite bool_decide_eq_true_2 in Hrun by apply NoDup_nil_2.
    destruct Hrun as (Hout & Hstore & _).
    eexists. split; [exact Hout|]. split; [exact Hstore|]. split; [|reflexivity].
    unfold no_zoom_levels, generateTileUrls, JS.forEach, put_entries.
    cbn [zoomLevels fold_left]. rewrite Hcache. apply map_size_singleton.
Qed.

(** C4.  An install run over [N] site assets and the [M] generated tile
    URLs, into a generation that holds nothing outside this manifest (a
    new generation holds nothing at all).  The run completes exactly when
    every site asset is fetched and stored; otherwise it is rejected and
    nothing is written.  Whether tile fetches fail plays no part in that:
    every tile is attempted and a failed one is skipped.  After a
    completed run the generation holds each of the [N] site assets, each
    tile whose fetch succeeded, and besides the site assets only tile
    URLs: at most [N + M] entries. *)
Theorem install_outcome (precacheUrls : list string) (bounds : BoundingRegion)
    (net : Network) (w : World) :
  let tileUrls := generateTileUrls bounds in
  let run := install precacheUrls bounds net w in
  (∀ k, is_Some (opened_cache w !! k) → k ∈ precacheUrls ∨ k ∈ tileUrls) →
  (run.1 = Fulfilled tt ↔
     (∀ u, u ∈ precacheUrls → cacheableb net u = true) ∧ NoDup precacheUrls) ∧
  (run.1 ≠ Fulfilled tt →
     (∃ e, run.1 = Rejected e) ∧
     store_lookup CACHE_NAME (storage run.2) = Some (opened_cache w)) ∧
  (run.1 = Fulfilled tt →
     ∃ c, store_lookup CACHE_NAME (storage run.2) = Some c ∧
          (∀ u, u ∈ precacheUrls → is_Some (c !! u)) ∧
          (∀ u, u ∈ tileUrls → cacheableb net u = true → is_Some (c !! u)) ∧
          (∀ k, is_Some (c !! k) →
                k ∈ precacheUrls ∨
                (k ∈ tileUrls ∧
                 (cacheableb net k = true ∨ is_Some (opened_cache w !! k)))) ∧
          size (list_to_set precacheUrls : gset string) = length precacheUrls ∧
          size c ≤ length precacheUrls + length tileUrls ∧
          requested run.2 = requested w ++ map GET precacheUrls ++ map GET tileUrls).
Proof.
  intros tileUrls run Hmanifest.
  pose proof (install_run precacheUrls bounds net w) as Hrun.
  cbv zeta in Hrun. fold run in Hrun. fold tileUrls in Hrun.
  pose proof (batch_responses_is_Some net precacheUrls) as Hbatch.
  destruct (batch_responses net precacheUrls) as [entries|] eqn:Hentries.
  - case_bool_decide as Hnd.
    + destruct Hrun as (Hout & Hstore & Hlog).
      split; [|split].
      * split; [|done]. intros _. split; [|done]. apply Hbatch. by eexists.
      * intros Hne. by destruct Hne.
      * intros _. eexists. split; [exact Hstore|].
        pose proof (batch_responses_keys _ _ _ Hentries) as Hkeys.
        set (c := fold_left (add_tile net) tileUrls (put_entries entries (opened_cache w))).
        assert (Hdom : ∀ k, is_Some (c !! k) ↔
                  (is_Some (opened_cache w !! k) ∨ k ∈ precacheUrls) ∨
                  (k ∈ tileUrls ∧ cacheableb net k = true)).
        { intros k. unfold c.
          rewrite <- elem_of_dom, elem_of_dom_add_tiles, dom_put_entries, Hkeys.
          by rewrite elem_of_union, elem_of_list_to_set, elem_of_dom. }
        split; [intros u Hu; apply Hdom; left; by right|].
        split; [intros u Hu Hc; apply Hdom; by right|].
        split.
        { intros k [[Hold | Hk] | [Hk Hc]]%Hdom; [|by left | right; auto].
          destruct (Hmanifest k Hold) as [? | ?]; [by left | right; auto]. }
        split; [by apply size_list_to_set|].
        split; [|done].
        rewrite <- size_dom.
        assert (Hsub : dom c ⊆ list_to_set precacheUrls ∪ (list_to_set tileUrls : gset string)).
        { intros k Hk. apply elem_of_dom, Hdom in Hk.
          rewrite elem_of_union, !elem_of_list_to_set.
          destruct Hk as [[Hold | ?] | [? _]]; auto. }
        apply subseteq_size in Hsub.
        pose proof (size_list_to_set_le precacheUrls).
        pose proof (size_list_to_set_le tileUrls).
        rewrite size_union_alt in Hsub.
        pose proof (subseteq_size
          ((list_to_set tileUrls : gset string) ∖ list_to_set precacheUrls)
          (list_to_set tileUrls) ltac:(set_solver)).
        lia.
    + destruct Hrun as (Hout & Hstore). split; [|split].
      * rewrite Hout. split; [done | by intros [_ ?]].
      * intros _. split; [by eexists | done].
      * rewrite Hout. done.
  - destruct Hrun as (Hout & Hstore). split; [|split].
    + rewrite Hout. split; [done|]. intros [Hall _].
      apply Hbatch in Hall. by destruct Hall.
    + intros _. split; [by eexists | done].
    + rewrite Hout. done.
Qed.

Lemma install_outcome_witness :
  (onInstall all_ok nothing_installed).1 = Fulfilled tt ∧
  ∃ c, store_lookup CACHE_NAME (storage (onInstall all_ok nothing_installed).2) = Some c ∧
       (∀ u, u ∈ PRECACHE_URLS → is_Some (c !! u)) ∧
       size c ≤ length PRECACHE_URLS + length (generateTileUrls OFFLINE_TILE_BOUNDS).
Proof.
  assert (Hnew : ∀ k, is_Some (opened_cache nothing_installed !! k) →
            k ∈ PRECACHE_URLS ∨ k ∈ generateTileUrls OFFLINE_TILE_BOUNDS).
  { intros k [r Hr].
    change (opened_cache nothing_installed) with (∅ : gmap string Response) in Hr.
    rewrite lookup_empty in Hr. discriminate Hr. }
  pose proof (install_outcome PRECACHE_URLS OFFLINE_TILE_BOUNDS all_ok nothing_installed
                Hnew) as (Hiff & _ & Hdone).
  assert (Hok : (onInstall all_ok nothing_installed).1 = Fulfilled tt).
  { apply Hiff. split.
    - intros u _. reflexivity.
    - apply (bool_decide_unpack (NoDup _)). vm_compute. exact I. }
  split; [exact Hok|].
  destruct (Hdone Hok) as (c & Hc & Hstatic & _ & _ & _ & Hsize & _).
  exists c. split; [exact Hc|]. split; [exact Hstatic | exact Hsize].
Defined.

End InstallFacts.

(** * Further properties *)

(** ** Tile URLs and the tile grid *)

Module TileExtras.
Import JS Tiles Text SW Vocabulary LoopFacts TileFacts.

Lemma rectangle_NoDup b zoom : NoDup (rectangle b zoom).
Proof.
  unfold rectangle.
  apply NoDup_bind; [| |apply NoDup_seqZ].
  - intros x1 x2 u _ _ H1 H2.
    apply list_elem_of_bind in H1 as (y1 & H1 & _).
    apply list_elem_of_bind in H1 as (s1 & ->%list_elem_of_singleton & Hs1).
    apply list_elem_of_bind in H2 as (y2 & H2 & _).
    apply list_elem_of_bind in H2 as (s2 & Heq%list_elem_of_singleton & Hs2).
    by apply tileUrl_inj in Heq as (_ & _ & ? & _).
  - intros x _. apply NoDup_bind; [| |apply NoDup_seqZ].
    + intros y1 y2 u _ _ H1 H2.
      apply list_elem_of_bind in H1 as (s1 & ->%list_elem_of_singleton & Hs1).
      apply list_elem_of_bind in H2 as (s2 & Heq%list_elem_of_singleton & Hs2).
      by apply tileUrl_inj in Heq as (_ & _ & _ & ?).
    + intros y _. apply NoDup_bind.
      * intros s1 s2 u Hs1 Hs2 ->%list_elem_of_singleton Heq%list_elem_of_singleton.
        by apply tileUrl_inj in Heq as (? & _).
      * intros s _. apply NoDup_singleton.
      * unfold subdomains. apply (bool_decide_unpack (NoDup _)). vm_compute. exact I.
Qed.

(** X3.  When no zoom level is listed twice, no URL is generated twice. *)
Theorem generateTileUrls_NoDup (b : BoundingRegion) :
  NoDup (zoomLevels b) → NoDup (generateTileUrls b).
Proof.
  intros Hnd. rewrite generateTileUrls_rectangles.
  apply NoDup_bind; [| |done].
  - intros z1 z2 u _ _ H1 H2.
    apply elem_of_rectangle in H1 as (x1 & y1 & s1 & _ & _ & Hs1 & ->).
    apply elem_of_rectangle in H2 as (x2 & y2 & s2 & _ & _ & Hs2 & Heq).
    by apply tileUrl_inj in Heq as (_ & ? & _).
  - intros zoom _. apply rectangle_NoDup.
Qed.

Lemma generateTileUrls_NoDup_witness : NoDup (generateTileUrls OFFLINE_TILE_BOUNDS).
Proof.
  apply generateTileUrls_NoDup. simpl. apply NoDup_singleton.
Defined.

(** X4.  Two different combinations of subdomain, zoom, column and row
    never give the same URL. *)
Theorem tile_urls_are_distinct (sub sub' : string) (zoom zoom' x x' y y' : Z) :
  sub ∈ subdomains → sub' ∈ subdomains →
  (sub, zoom, x, y) ≠ (sub', zoom', x', y') →
  tileUrl sub zoom x y ≠ tileUrl sub' zoom' x' y'.
Proof.
  intros Hs Hs' Hne Heq. apply Hne.
  by apply tileUrl_inj in Heq as (-> & -> & -> & ->).
Qed.

Lemma tile_urls_are_distinct_witness :
  tileUrl "a" 12 1103 1690 ≠ tileUrl "b" 12 1103 1690.
Proof.
  apply tile_urls_are_distinct.
  - unfold subdomains. apply elem_of_cons. left. reflexivity.
  - unfold subdomains. apply elem_of_cons. right. apply elem_of_cons. left. reflexivity.
  - intros H. discriminate H.
Defined.

End TileExtras.

(** ** Install and activate together *)

Module LifecycleExtras.
Import Tiles Binary SW Vocabulary TileFacts FetchFacts ActivateFacts InstallFacts.

Lemma fetched_cacheable net u :
  cacheableb net u = true ↔ is_Some (fetched net u).
Proof.
  unfold cacheableb, fetched. destruct (net (GET u)) as [resp|].
  - destruct (addable resp); split; (done || by intros [? ?] || by eexists).
  - split; [done | by intros [? ?]].
Qed.

Lemma lookup_put_entries net urls entries (c : gmap string Response) k :
  batch_responses net urls = Some entries →
  put_entries entries c !! k = if decide (k ∈ urls) then fetched net k else c !! k.
Proof.
  unfold put_entries. revert entries c.
  induction urls as [|u urls IH]; intros entries c; cbn [batch_responses].
  - intros [= <-]. cbn [fold_left].
    destruct (decide (k ∈ [])) as [Hk | _]; [by apply elem_of_nil in Hk | done].
  - destruct (net (GET u)) as [resp|] eqn:Hnet; [|done].
    destruct (batch_responses net urls) as [rest|]; [|done].
    destruct (addable resp) eqn:Hadd; [|done]. intros [= <-]. cbn [fold_left fst snd].
    rewrite (IH rest) by done.
    destruct (decide (k ∈ urls)) as [Hin | Hnin].
    + rewrite decide_True; [done | by right].
    + destruct (decide (k = u)) as [-> | Hne].
      * rewrite decide_True by (by left). rewrite lookup_insert_eq.
        unfold fetched. by rewrite Hnet, Hadd.
      * rewrite decide_False by (rewrite elem_of_cons; tauto).
        by rewrite lookup_insert_ne.
Qed.

Lemma lookup_add_tiles net tiles (c : gmap string Response) k :
  fold_left (add_tile net) tiles c !! k =
  if decide (k ∈ tiles) then from_option Some (c !! k) (fetched net k) else c !! k.
Proof.
  revert c. induction tiles as [|u tiles IH]; intros c; cbn [fold_left].
  - destruct (decide (k ∈ [])) as [Hk | _]; [by apply elem_of_nil in Hk | done].
  - rewrite IH.
    assert (Hadd : add_tile net c u !! k =
              if decide (k = u) then from_option Some (c !! k) (fetched net k) else c !! k).
    { unfold add_tile, fetched. destruct (decide (k = u)) as [-> | Hne].
      - destruct (net (GET u)) as [resp|]; [|done].
        destruct (addable resp); [|done]. simpl. apply lookup_insert_eq.
      - destruct (net (GET u)) as [resp|]; [|done].
        destruct (addable resp); [|done]. by apply lookup_insert_ne. }
    rewrite Hadd. clear Hadd IH.
    destruct (decide (k ∈ u :: tiles)) as [Hcons | Hcons];
      destruct (decide (k ∈ tiles)) as [Hin | Hnin];
      destruct (decide (k = u)) as [Heq | Hne]; try done.
    + by destruct (fetched net k).
    + apply elem_of_cons in Hcons. tauto.
    + destruct Hcons. by right.
    + destruct Hcons. by right.
    + destruct Hcons. subst. by left.
Qed.

Lemma caches_open_storage net w :
  caches_open CACHE_NAME net w = (Fulfilled CACHE_NAME, set_storage (opened_storage w) w).
Proof.
  unfold caches_open, opened_storage.
  destruct (store_lookup CACHE_NAME (storage w)); [|done].
  by rewrite set_storage_same.
Qed.

(** The outcome of an install run, world included. *)
Lemma install_shape precacheUrls bounds net w :
  install precacheUrls bounds net w =
  match batch_responses net precacheUrls with
  | Some entries =>
      if bool_decide (NoDup precacheUrls) then
        (Fulfilled tt,
         {| storage := store_update CACHE_NAME
              (λ c, fold_left (add_tile net) (generateTileUrls bounds) (put_entries entries c))
              (opened_storage w);
            requested := requested w ++ map GET precacheUrls
                           ++ map GET (generateTileUrls bounds) |})
      else
        (Rejected InvalidStateError,
         {| storage := opened_storage w;
            requested := requested w ++ map GET precacheUrls |})
  | None =>
      (Rejected TypeError,
       {| storage := opened_storage w;
          requested := requested w ++ map GET precacheUrls |})
  end.
Proof.
  unfold install, mbind, M_bind, await. rewrite caches_open_storage.
  unfold cache_addAll. cbn [storage requested set_storage].
  destruct (batch_responses net precacheUrls) as [entries|]; [|done].
  case_bool_decide; [|done].
  match goal with |- context [Promise_all ?ps net ?w2] =>
    destruct (tiles_precache_spec (generateTileUrls bounds) net w2) as [rs Hrs]
  end.
  cbv zeta. rewrite Hrs. unfold resolve. cbn [storage requested set_storage].
  by rewrite store_update_compose, <- app_assoc.
Qed.

Lemma cached_in_opened w n k :
  cached_in (opened_storage w) n k = cached_in (storage w) n k.
Proof.
  unfold opened_storage. destruct (store_lookup CACHE_NAME (storage w)) eqn:Hl; [done|].
  by apply cached_in_open.
Qed.

Lemma opened_storage_current w :
  is_Some (store_lookup CACHE_NAME (opened_storage w)).
Proof.
  unfold opened_storage. destruct (store_lookup CACHE_NAME (storage w)) eqn:Hl.
  - by rewrite Hl.
  - rewrite store_lookup_app_fresh by done. by rewrite decide_True.
Qed.

Lemma cached_in_store_update_fun name f st n k :
  cached_in (store_update name f st) n k =
  if decide (n = name)
  then match store_lookup name st with Some c => f c !! k | None => None end
  else cached_in st n k.
Proof.
  unfold cached_in. rewrite store_update_lookup.
  destruct (decide (n = name)) as [-> | Hn]; [|done].
  by destruct (store_lookup name st).
Qed.

(** The entries of every cache after a completed install. *)
Lemma install_contents precacheUrls bounds net w n k :
  (install precacheUrls bounds net w).1 = Fulfilled tt →
  cached_in (storage (install precacheUrls bounds net w).2) n k =
  if decide (n = CACHE_NAME ∧
             (k ∈ precacheUrls ∨ (k ∈ generateTileUrls bounds ∧ cacheableb net k = true)))
  then fetched net k
  else cached_in (storage w) n k.
Proof.
  rewrite install_shape.
  destruct (batch_responses net precacheUrls) as [entries|] eqn:Hentries; [|done].
  case_bool_decide; [|done]. intros _. cbn [snd storage].
  rewrite cached_in_store_update_fun.
  destruct (decide (n = CACHE_NAME)) as [-> | Hn].
  - destruct (opened_storage_current w) as [c Hc]. rewrite Hc.
    rewrite lookup_add_tiles, (lookup_put_entries net precacheUrls) by done.
    assert (Hcur : c !! k = cached_in (storage w) CACHE_NAME k).
    { rewrite <- cached_in_opened. unfold cached_in. by rewrite Hc. }
    assert (Hstatic : k ∈ precacheUrls → is_Some (fetched net k)).
    { intros Hk. apply fetched_cacheable.
      apply (batch_responses_is_Some net precacheUrls); [by eexists | done]. }
    pose proof (fetched_cacheable net k) as Hfc.
    rewrite <- Hcur.
    match goal with |- _ = (if decide ?P then _ else _) =>
      destruct (decide P) as [(_ & Hin) | Hout] end.
    + destruct (decide (k ∈ precacheUrls)) as [Hs | Hs].
      * destruct (Hstatic Hs) as [r Hr]. rewrite Hr.
        by destruct (decide (k ∈ generateTileUrls bounds)).
      * destruct Hin as [? | [Ht Hc']]; [done|].
        apply Hfc in Hc' as [r Hr]. rewrite Hr.
        by rewrite decide_True.
    + destruct (decide (k ∈ precacheUrls)) as [Hs | Hs]; [destruct Hout; auto|].
      destruct (decide (k ∈ generateTileUrls bounds)) as [Ht | Ht]; [|done].
      destruct (fetched net k) as [r|] eqn:Hr; [|done].
      destruct Hout. split; [done|]. right. split; [done|]. apply Hfc. by eexists.
  - rewrite decide_False by (by intros [? _]). apply cached_in_opened.
Qed.

(** X15.  When one site asset cannot be fetched and stored, the install
    run is rejected after the site assets have been requested: no tile is
    requested and no cache entry is written. *)
Theorem install_failure_sends_no_tile_request (precacheUrls : list string)
    (bounds : BoundingRegion) (net : Network) (w : World) (u : string) :
  u ∈ precacheUrls → cacheableb net u = false →
  (install precacheUrls bounds net w).1 = Rejected TypeError ∧
  requested (install precacheUrls bounds net w).2 = requested w ++ map GET precacheUrls ∧
  ∀ n k, cached_in (storage (install precacheUrls bounds net w).2) n k
         = cached_in (storage w) n k.
Proof.
  intros Hu Hbad. rewrite install_shape.
  destruct (batch_responses net precacheUrls) as [entries|] eqn:Hentries.
  - assert (Hall : is_Some (batch_responses net precacheUrls)) by (by eexists).
    rewrite batch_responses_is_Some in Hall. rewrite (Hall u Hu) in Hbad. done.
  - cbn [fst snd storage requested]. split; [done|]. split; [done|].
    intros n k. apply cached_in_opened.
Qed.

Lemma install_failure_sends_no_tile_request_witness :
  (onInstall offline nothing_installed).1 = Rejected TypeError ∧
  requested (onInstall offline nothing_installed).2 = map GET PRECACHE_URLS.
Proof.
  destruct (install_failure_sends_no_tile_request PRECACHE_URLS OFFLINE_TILE_BOUNDS
              offline nothing_installed "/index.html") as (Hout & Hlog & _).
  - apply (bool_decide_unpack (_ ∈ _)). vm_compute. exact I.
  - reflexivity.
  - split; [exact Hout | exact Hlog].
Defined.

(** X16.  After a completed install the current generation holds, for
    every site asset and every tile whose fetch gave an acceptable
    response, exactly the response the network gave; all other entries of
    the current generation and all other caches are as they were. *)
Theorem install_stores_network_responses (precacheUrls : list string)
    (bounds : BoundingRegion) (net : Network) (w : World) :
  (install precacheUrls bounds net w).1 = Fulfilled tt →
  (∀ u resp, u ∈ precacheUrls ∨ u ∈ generateTileUrls bounds →
     net (GET u) = Responds resp → addable resp = true →
     cached_in (storage (install precacheUrls bounds net w).2) CACHE_NAME u = Some resp) ∧
  (∀ k, k ∉ precacheUrls →
     k ∉ generateTileUrls bounds ∨ cacheableb net k = false →
     cached_in (storage (install precacheUrls bounds net w).2) CACHE_NAME k
     = cached_in (storage w) CACHE_NAME k) ∧
  (∀ n k, n ≠ CACHE_NAME →
     cached_in (storage (install precacheUrls bounds net w).2) n k
     = cached_in (storage w) n k).
Proof.
  intros Hdone. split; [|split].
  - intros u resp Hu Hnet Hadd. rewrite install_contents by done.
    assert (Hf : fetched net u = Some resp) by (unfold fetched; by rewrite Hnet, Hadd).
    rewrite decide_True; [done|]. split; [done|].
    destruct Hu as [? | ?]; [by left | right]. split; [done|].
    unfold cacheableb. by rewrite Hnet.
  - intros k Hs Ht. rewrite install_contents by done.
    rewrite decide_False; [done|]. intros (_ & [? | [? Hc]]); [done|].
    destruct Ht as [? | Hc']; [done | congruence].
  - intros n k Hn. rewrite install_contents by done.
    rewrite decide_False; [done|]. by intros [? _].
Qed.

Lemma install_stores_network_responses_witness :
  cached_in (storage (onInstall all_ok nothing_installed).2) CACHE_NAME "/index.html"
  = Some {| status := 200; content_type := None; body := [] |}.
Proof.
  assert (Hdone : (install PRECACHE_URLS OFFLINE_TILE_BOUNDS all_ok nothing_installed).1
                  = Fulfilled tt).
  { rewrite install_shape. reflexivity. }
  destruct (install_stores_network_responses PRECACHE_URLS OFFLINE_TILE_BOUNDS
              all_ok nothing_installed Hdone) as (Hstored & _ & _).
  apply Hstored.
  - left. apply (bool_decide_unpack (_ ∈ _)). vm_compute. exact I.
  - reflexivity.
  - reflexivity.
Defined.

Lemma map_fst_store_update name f (st : list (string * gmap string Response)) :
  map fst (store_update name f st) = map fst st.
Proof.
  unfold store_update. induction st as [|[m c] st IH]; [done|].
  cbn [map fst]. rewrite IH. by destruct (decide (m = name)).
Qed.

Lemma opened_storage_names w :
  NoDup (map fst (storage w)) →
  NoDup (map fst (opened_storage w)) ∧ CACHE_NAME ∈ map fst (opened_storage w).
Proof.
  intros Hnd. unfold opened_storage.
  destruct (store_lookup CACHE_NAME (storage w)) eqn:Hl.
  - split; [done|]. destruct (decide (CACHE_NAME ∈ map fst (storage w))) as [|Hn]; [done|].
    apply store_lookup_None in Hn. congruence.
  - apply store_lookup_None in Hl. rewrite map_app. cbn [map fst]. split.
    + apply NoDup_app. split; [done|]. split; [|apply NoDup_singleton].
      intros x Hx ->%list_elem_of_singleton. done.
    + apply elem_of_app. right. by apply list_elem_of_singleton.
Qed.

Lemma onActivate_run net w :
  onActivate net w = (Fulfilled tt, set_storage (keep_current (storage w)) w).
Proof.
  unfold onActivate, caches_keys. run_monad.
  destruct (delete_stale_spec (map fst (storage w)) net w) as [rs Hrs].
  unfold mbind, M_bind, await, resolve in Hrs. rewrite Hrs.
  by rewrite purge_all_keys.
Qed.

Lemma keep_current_idemp st : keep_current (keep_current st) = keep_current st.
Proof.
  unfold keep_current. rewrite list_filter_filter.
  apply list_filter_iff. intros p. tauto.
Qed.

(** X18.  From a storage whose cache names are distinct, a completed
    install followed by the activate handler leaves the current generation
    as the only cache, with the entries install gave it and without any
    further network request; activating once more changes nothing. *)
Theorem install_then_activate (precacheUrls : list string) (bounds : BoundingRegion)
    (net net' net'' : Network) (w : World) :
  NoDup (map fst (storage w)) →
  (install precacheUrls bounds net w).1 = Fulfilled tt →
  let installed := (install precacheUrls bounds net w).2 in
  let active := (onActivate net' installed).2 in
  (onActivate net' installed).1 = Fulfilled tt ∧
  map fst (storage active) = [CACHE_NAME] ∧
  (∀ k, cached_in (storage active) CACHE_NAME k
        = cached_in (storage installed) CACHE_NAME k) ∧
  requested active = requested installed ∧
  onActivate net'' active = (Fulfilled tt, active).
Proof.
  intros Hnd Hdone installed active.
  unfold active. rewrite onActivate_run. cbn [fst snd storage requested set_storage].
  assert (Hnames : NoDup (map fst (storage installed)) ∧
                   CACHE_NAME ∈ map fst (storage installed)).
  { unfold installed. rewrite install_shape in Hdone |- *.
    destruct (batch_responses net precacheUrls); [|done].
    case_bool_decide; [|done]. cbn [snd storage].
    rewrite map_fst_store_update. by apply opened_storage_names. }
  destruct Hnames as [Hnd' Hin].
  split; [done|]. split; [by apply keep_current_names|]. split.
  - intros k. unfold cached_in. rewrite keep_current_lookup. by rewrite decide_True.
  - split; [done|]. rewrite onActivate_run. cbn [storage set_storage requested].
    by rewrite keep_current_idemp.
Qed.

Lemma install_then_activate_witness :
  map fst (storage (onActivate offline (onInstall all_ok three_generations).2).2)
  = [CACHE_NAME].
Proof.
  apply (install_then_activate PRECACHE_URLS OFFLINE_TILE_BOUNDS all_ok offline offline
           three_generations).
  - apply (bool_decide_unpack (NoDup _)). vm_compute. exact I.
  - rewrite install_shape. reflexivity.
Defined.

End LifecycleExtras.
